(** * Certificate chain resolution by issuer URL (helpers/tls/ca_chain/resolver_url.go)

    A shallow embedding of the URL based resolver of the [ca_chain] package:
    the [fetcher] interface and its HTTP implementation, the [urlResolver]
    structure, [fetchIssuerCertificate] and the bounded loop of [Resolve].

    Conventions of the embedding.
    - A Go slice is a [slice]: either the nil slice or a list of elements; the
      distinction matters because [Resolve] tests a slice against nil.
    - A Go [error] is represented by its message, the text that the verb %v of
      [fmt.Errorf] prints; an optional error is [option error], [None] being nil.
    - A pair (value, error) returned by a collaborator whose caller looks at the
      error first is a [Result].
    - Pointers to certificates are taken to be non-nil: a chain is a slice of
      certificate values.
    - The effects of the code are threaded through the monad [M]: the state of
      the outside world seen by the fetcher, a run-time panic, and the ordered
      trace of the observable actions of a call (fetches, decodes and log
      records).
    - Go's [int] is a [Z]. The only arithmetic of the file is the increment of
      the loop counter, which never exceeds the loop limit, itself an [int];
      no wrap-around can occur. *)

From Stdlib Require Import ZArith Lia Strings.Byte.
From stdpp Require Import base list strings gmap.

Local Open Scope string_scope.
Local Open Scope list_scope.
Local Open Scope Z_scope.

(** ** Data *)

Inductive slice (A : Type) : Type :=
| SNil
| SOf (l : list A).
Arguments SNil {A}.
Arguments SOf {A} l.

Definition elems {A} (s : slice A) : list A :=
  match s with
  | SNil => []
  | SOf l => l
  end.

(** [len(s)] *)
Definition len {A} (s : slice A) : Z := Z.of_nat (length (elems s)).

(** [s == nil] *)
Definition is_nil {A} (s : slice A) : bool :=
  match s with
  | SNil => true
  | SOf _ => false
  end.

(** [append(s, x)]: the result is never nil; the elements of [s] are kept in
    place and [x] comes last. *)
Definition append {A} (s : slice A) (x : A) : slice A := SOf (elems s ++ [x]).

Definition bytes : Type := list Byte.byte.

#[export] Instance byte_eq_decision : EqDecision Byte.byte := Byte.byte_eq_dec.

Definition error : Type := string.

Inductive Result (A : Type) : Type :=
| Ok (a : A)
| Err (err : error).
Arguments Ok {A} a.
Arguments Err {A} err.

(** The fields of [x509.Certificate] that the resolver and the design of the
    engine refer to. *)
Record Certificate : Type := mkCertificate {
  Subject : string;
  Issuer : string;
  SerialNumber : Z;
  PublicKey : bytes;
  Signature : bytes;
  IssuingCertificateURL : slice string
}.

(** ** Logging (logrus.FieldLogger)

    A logger is the set of fields it attaches to each record. *)

Abbreviation Logger := (gmap string string).

Inductive Level : Type := DebugLevel | WarningLevel.

Definition WithField (key value : string) (log : Logger) : Logger :=
  <[key := value]> log.

(** [WithError(err)] is [WithField(logrus.ErrorKey, err)]. *)
Definition WithError (err : error) (log : Logger) : Logger :=
  WithField "error" err log.

(** ** Observable actions of a call *)

Inductive Event : Type :=
| EvFetch (url : string) (res : Result bytes)
| EvDecode (data : bytes) (res : Result Certificate)
| EvLog (lvl : Level) (fields : Logger) (msg : string).

(** The URLs handed to the fetcher, in order. *)
Fixpoint fetches (evs : list Event) : list string :=
  match evs with
  | [] => []
  | EvFetch url _ :: evs => url :: fetches evs
  | _ :: evs => fetches evs
  end.

(** The certificates the decoder produced, in order. *)
Fixpoint decoded (evs : list Event) : list Certificate :=
  match evs with
  | [] => []
  | EvDecode _ (Ok c) :: evs => c :: decoded evs
  | _ :: evs => decoded evs
  end.

(** ** Structures of the package and of [net/http] *)

(** [net/http]: a response carries its status code and its body; [Body] is
    what [ioutil.ReadAll] makes of the body stream. *)
Record Response : Type := mkResponse {
  StatusCode : Z;
  Body : Result bytes
}.

(** The two shapes of the pair returned by [http.Client.Get]: a response and
    no error (whatever the status code of the response: the client reports
    no error for a status outside 2xx), or an error, with or without a
    response to close. *)
Inductive GetResult : Type :=
| GetResponse (resp : Response)
| GetError (resp : option Response) (err : error).

Record http_Client : Type := mkClient {
  Timeout : Z
}.

Record httpFetcher : Type := mkHTTPFetcher {
  client : http_Client
}.

Definition decoder : Type := bytes -> Result Certificate.

(** The fields [fetcher] and [decoder] of the structure bear the names of
    their types in the source; here they are primed. *)
Record urlResolver (F : Type) : Type := mkURLResolver {
  logger : Logger;
  fetcher' : F;
  decoder' : decoder;
  loopLimit : Z
}.
Arguments mkURLResolver {F}.
Arguments logger {F}.
Arguments fetcher' {F}.
Arguments decoder' {F}.
Arguments loopLimit {F}.

(** The functions of the package that [resolver_url.go] calls and another
    file of the package declares. *)
Class helpers : Type := mkHelpers {
  decodeCertificate : decoder;
  isSelfSigned : Certificate -> bool;
  prepareCertificateLogger : Logger -> Certificate -> Logger;
  preparePrefixedCertificateLogger : Logger -> Certificate -> string -> Logger
}.

(** ** The effect monad *)

Inductive Exec (A : Type) : Type :=
| Val (a : A)
| Panic (msg : string)
| OutOfFuel.
Arguments Val {A} a.
Arguments Panic {A} msg.
Arguments OutOfFuel {A}.

Section Resolver.

(** The state of everything outside the process that a fetch can observe or
    change (the network, a test double's counters). *)
Context {World : Type}.

Definition M (A : Type) : Type := World -> Exec A * World * list Event.

Definition ret {A} (a : A) : M A := fun w => (Val a, w, []).

Definition bind {A B} (m : M A) (k : A -> M B) : M B :=
  fun w =>
    match m w with
    | (Val a, w1, evs1) =>
        match k a w1 with
        | (x, w2, evs2) => (x, w2, evs1 ++ evs2)
        end
    | (Panic msg, w1, evs1) => (Panic msg, w1, evs1)
    | (OutOfFuel, w1, evs1) => (OutOfFuel, w1, evs1)
    end.

Definition panic {A} (msg : string) : M A := fun w => (Panic msg, w, []).

Definition diverge {A} : M A := fun w => (OutOfFuel, w, []).

Definition emit (ev : Event) : M unit := fun w => (Val tt, w, [ev]).

Notation "x <- m ;; k" := (bind m (fun x => k))
  (at level 100, m at next level, right associativity).
Notation "m ;;; k" := (bind m (fun _ => k))
  (at level 100, right associativity).

Definition Warning (log : Logger) (msg : string) : M unit :=
  emit (EvLog WarningLevel log msg).

Definition Debug (log : Logger) (msg : string) : M unit :=
  emit (EvLog DebugLevel log msg).

(** [s[i]], with Go's bounds check. *)
Definition index {A} (s : slice A) (i : Z) : M A :=
  if bool_decide (i < 0) then panic "index out of range"
  else match elems s !! Z.to_nat i with
       | Some x => ret x
       | None => panic "index out of range"
       end.

(** ** The fetcher interface and its HTTP implementation *)

Class fetcher (F : Type) : Type :=
  Fetch : F -> string -> World -> Result bytes * World.

(** What the network answers to a GET request of a client. *)
Class http : Type :=
  http_Get : http_Client -> string -> World -> GetResult * World.

Definition newHTTPFetcher (timeout : Z) : httpFetcher :=
  {| client := {| Timeout := timeout |} |}.

(** Closing the body, deferred when the response is not nil, has no
    observable effect here. *)
Definition httpFetcher_Fetch `{!http} (f : httpFetcher) (url : string) (w : World)
  : Result bytes * World :=
  match http_Get (client f) url w with
  | (GetError _ err, w1) => (Err err, w1)
  | (GetResponse resp, w1) =>
      match Body resp with
      | Err err => (Err err, w1)
      | Ok data => (Ok data, w1)
      end
  end.

#[export] Instance httpFetcher_fetcher `{!http} : fetcher httpFetcher :=
  httpFetcher_Fetch.

(** ** The resolver *)

Definition defaultURLResolverLoopLimit : Z := 15.

(** In nanoseconds, the unit of [time.Duration]. *)
Definition defaultURLResolverFetchTimeout : Z := 15 * 1000000000.

Definition newURLResolver `{!http} `{!helpers} (log : Logger) : urlResolver httpFetcher :=
  {| logger := log;
     fetcher' := newHTTPFetcher defaultURLResolverFetchTimeout;
     decoder' := decodeCertificate;
     loopLimit := defaultURLResolverLoopLimit |}.

Section WithFetcher.

Context `{!helpers} {F : Type} `{!fetcher F}.

(** [r.fetcher.Fetch(url)] *)
Definition callFetch (r : urlResolver F) (url : string) : M (Result bytes) :=
  fun w =>
    match Fetch (fetcher' r) url w with
    | (res, w1) => (Val res, w1, [EvFetch url res])
    end.

(** [r.decoder(data)] *)
Definition callDecode (r : urlResolver F) (data : bytes) : M (Result Certificate) :=
  fun w => let res := decoder' r data in (Val res, w, [EvDecode data res]).

Definition fetchIssuerCertificate (r : urlResolver F) (cert : Certificate)
  : M (Result Certificate) :=
  let log := WithField "method" "fetchIssuerCertificate"
               (prepareCertificateLogger (logger r) cert) in
  issuerURL <- index (IssuingCertificateURL cert) 0 ;;
  res <- callFetch r issuerURL ;;
  match res with
  | Err err =>
      Warning (WithField "issuerURL" issuerURL (WithError err log))
        "Remote certificate fetching error" ;;;
      ret (Err ("remote fetch failure: " +:+ err))
  | Ok data =>
      res <- callDecode r data ;;
      match res with
      | Err err =>
          Warning (WithError err log) "Certificate decoding error" ;;;
          ret (Err ("decoding failure: " +:+ err))
      | Ok newCert =>
          Debug (preparePrefixedCertificateLogger log newCert "newCert")
            "Appending the certificate to the chain" ;;;
          ret (Ok newCert)
      end
  end.

(** How one pass through the body of the loop of [Resolve] leaves it. *)
Inductive Flow : Type :=
| Break (certs : slice Certificate)
| Return (certs : slice Certificate) (err : option error)
| Continue (loop : Z) (certs : slice Certificate).

(** The body of the [for] loop of [Resolve], from [loop++] on. *)
Definition iteration (r : urlResolver F) (loop : Z) (certs : slice Certificate)
  : M Flow :=
  let loop := loop + 1 in
  if bool_decide (loop >= loopLimit r) then
    Warning (logger r) "urlResolver loop limit exceeded; exiting the loop" ;;;
    ret (Break certs)
  else
    certificate <- index certs (len certs - 1) ;;
    let log := prepareCertificateLogger (logger r) certificate in
    if is_nil (IssuingCertificateURL certificate) then
      Debug log "Certificate doesn't provide parent URL: exiting the loop" ;;;
      ret (Break certs)
    else
      res <- fetchIssuerCertificate r certificate ;;
      match res with
      | Err err =>
          ret (Return SNil
                 (Some ("error while fetching issuer certificate: " +:+ err)))
      | Ok newCert =>
          let certs := append certs newCert in
          if isSelfSigned newCert then
            Debug log
              "Fetched issuer certificate is a ROOT certificate so exiting the loop" ;;;
            ret (Break certs)
          else ret (Continue loop certs)
      end.

(** The loop itself; after a [break] the function returns the chain and no
    error. [fuel] bounds the number of passes of the model, which
    [resolveLoop_runs] below shows is never the reason why the loop stops. *)
Fixpoint resolveLoop (r : urlResolver F) (fuel : nat) (loop : Z)
    (certs : slice Certificate) : M (slice Certificate * option error) :=
  match fuel with
  | O => diverge
  | S fuel =>
      flow <- iteration r loop certs ;;
      match flow with
      | Break certs => ret (certs, None)
      | Return certs err => ret (certs, err)
      | Continue loop certs => resolveLoop r fuel loop certs
      end
  end.

Definition Resolve (r : urlResolver F) (certs : slice Certificate)
  : M (slice Certificate * option error) :=
  if bool_decide (len certs < 1) then ret (SNil, None)
  else resolveLoop r (S (Z.to_nat (loopLimit r))) 0 certs.

End WithFetcher.

End Resolver.

(** ** Runs *)

Definition outcome {World A} (run : Exec A * World * list Event) : Exec A :=
  run.1.1.

Definition trace {World A} (run : Exec A * World * list Event) : list Event :=
  run.2.

(** The certificate at the end of a chain, as a list of at most one element. *)
Definition tail_of (certs : slice Certificate) : list Certificate :=
  option_list (last (elems certs)).

Definition limitExceededMessage : string :=
  "urlResolver loop limit exceeded; exiting the loop".

Definition rootReachedMessage : string :=
  "Fetched issuer certificate is a ROOT certificate so exiting the loop".

Definition fetchErrorMessage (cause : error) : error :=
  "error while fetching issuer certificate: " +:+ ("remote fetch failure: " +:+ cause).

Definition decodeErrorMessage (cause : error) : error :=
  "error while fetching issuer certificate: " +:+ ("decoding failure: " +:+ cause).

(** [mentions s t]: the text [s] occurs in [t]. *)
Fixpoint mentions (s t : string) : bool :=
  String.prefix s t ||
  match t with
  | EmptyString => false
  | String _ t' => mentions s t'
  end.

(** Modelled from the spec: the root detector [isSelfSigned], which
    [resolver_url.go] calls and which is declared in a file of the package
    that is not part of the sources at hand. The design asks that the issuer
    identity equal the subject identity and that the signature of the
    certificate verify against its own public key; [CheckSignature key cert]
    stands for the cryptographic verification. *)
Definition IsRoot (CheckSignature : bytes -> Certificate -> bool)
    (cert : Certificate) : bool :=
  bool_decide (Issuer cert = Subject cert) && CheckSignature (PublicKey cert) cert.

(** ** The ways through one pass of the loop

    [pass r loop l w run]: [run] is one of the seven ways in which a pass of
    the loop, entered with counter [loop], a chain with elements [l] and the
    world [w], can go. [iteration_pass] shows that every pass over a chain
    that is not empty goes one of these ways. *)

Section Pass.

Context {World : Type} `{!helpers} {F : Type} `{!fetcher (World := World) F}.

Definition fetchLogger (r : urlResolver F) (cert : Certificate) : Logger :=
  WithField "method" "fetchIssuerCertificate"
    (prepareCertificateLogger (logger r) cert).

Inductive pass (r : urlResolver F) (loop : Z) (l : list Certificate) (w : World)
  : Exec Flow * World * list Event -> Prop :=
| pass_limit :
    loop + 1 >= loopLimit r ->
    pass r loop l w
      (Val (Break (SOf l)), w,
       [EvLog WarningLevel (logger r) limitExceededMessage])
| pass_no_url cert :
    loop + 1 < loopLimit r ->
    last l = Some cert ->
    IssuingCertificateURL cert = SNil ->
    pass r loop l w
      (Val (Break (SOf l)), w,
       [EvLog DebugLevel (prepareCertificateLogger (logger r) cert)
          "Certificate doesn't provide parent URL: exiting the loop"])
| pass_out_of_range cert :
    loop + 1 < loopLimit r ->
    last l = Some cert ->
    IssuingCertificateURL cert = SOf [] ->
    pass r loop l w (Panic "index out of range", w, [])
| pass_fetch_failure cert url rest cause w1 :
    loop + 1 < loopLimit r ->
    last l = Some cert ->
    IssuingCertificateURL cert = SOf (url :: rest) ->
    Fetch (fetcher' r) url w = (Err cause, w1) ->
    pass r loop l w
      (Val (Return SNil (Some (fetchErrorMessage cause))), w1,
       [EvFetch url (Err cause);
        EvLog WarningLevel
          (WithField "issuerURL" url (WithError cause (fetchLogger r cert)))
          "Remote certificate fetching error"])
| pass_decode_failure cert url rest data cause w1 :
    loop + 1 < loopLimit r ->
    last l = Some cert ->
    IssuingCertificateURL cert = SOf (url :: rest) ->
    Fetch (fetcher' r) url w = (Ok data, w1) ->
    decoder' r data = Err cause ->
    pass r loop l w
      (Val (Return SNil (Some (decodeErrorMessage cause))), w1,
       [EvFetch url (Ok data);
        EvDecode data (Err cause);
        EvLog WarningLevel (WithError cause (fetchLogger r cert))
          "Certificate decoding error"])
| pass_root cert url rest data newCert w1 :
    loop + 1 < loopLimit r ->
    last l = Some cert ->
    IssuingCertificateURL cert = SOf (url :: rest) ->
    Fetch (fetcher' r) url w = (Ok data, w1) ->
    decoder' r data = Ok newCert ->
    isSelfSigned newCert = true ->
    pass r loop l w
      (Val (Break (SOf (l ++ [newCert]))), w1,
       [EvFetch url (Ok data);
        EvDecode data (Ok newCert);
        EvLog DebugLevel
          (preparePrefixedCertificateLogger (fetchLogger r cert) newCert "newCert")
          "Appending the certificate to the chain";
        EvLog DebugLevel (prepareCertificateLogger (logger r) cert)
          rootReachedMessage])
| pass_next cert url rest data newCert w1 :
    loop + 1 < loopLimit r ->
    last l = Some cert ->
    IssuingCertificateURL cert = SOf (url :: rest) ->
    Fetch (fetcher' r) url w = (Ok data, w1) ->
    decoder' r data = Ok newCert ->
    isSelfSigned newCert = false ->
    pass r loop l w
      (Val (Continue (loop + 1) (SOf (l ++ [newCert]))), w1,
       [EvFetch url (Ok data);
        EvDecode data (Ok newCert);
        EvLog DebugLevel
          (preparePrefixedCertificateLogger (fetchLogger r cert) newCert "newCert")
          "Appending the certificate to the chain"]).

(** [runs r loop l w run]: [run] is a complete run of the loop, made of
    passes that go on and of a last pass that leaves the loop. *)
Inductive runs (r : urlResolver F)
  : Z -> list Certificate -> World ->
    Exec (slice Certificate * option error) * World * list Event -> Prop :=
| runs_break loop l w certs w1 evs :
    pass r loop l w (Val (Break certs), w1, evs) ->
    runs r loop l w (Val (certs, None), w1, evs)
| runs_return loop l w certs err w1 evs :
    pass r loop l w (Val (Return certs err), w1, evs) ->
    runs r loop l w (Val (certs, err), w1, evs)
| runs_panic loop l w msg w1 evs :
    pass r loop l w (Panic msg, w1, evs) ->
    runs r loop l w (Panic msg, w1, evs)
| runs_continue loop l w loop1 l1 w1 evs1 x w2 evs2 :
    pass r loop l w (Val (Continue loop1 (SOf l1)), w1, evs1) ->
    runs r loop1 l1 w1 (x, w2, evs2) ->
    runs r loop l w (x, w2, evs1 ++ evs2).

End Pass.

(** [url] is the first of the issuer URLs of [cert]. *)
Definition first_url_of (cert : Certificate) (url : string) : Prop :=
  exists rest, IssuingCertificateURL cert = SOf (url :: rest).

(** ** Further readings of a trace and of a result *)

(** The warning records of a trace, in order. *)
Fixpoint warnings (evs : list Event) : list (Logger * string) :=
  match evs with
  | [] => []
  | EvLog WarningLevel log msg :: evs => (log, msg) :: warnings evs
  | _ :: evs => warnings evs
  end.

(** The bodies that the fetcher returned, in order. *)
Fixpoint fetched_data (evs : list Event) : list bytes :=
  match evs with
  | [] => []
  | EvFetch _ (Ok data) :: evs => data :: fetched_data evs
  | _ :: evs => fetched_data evs
  end.

(** The byte strings that were handed to the decoder, in order. *)
Fixpoint decode_inputs (evs : list Event) : list bytes :=
  match evs with
  | [] => []
  | EvDecode data _ :: evs => data :: decode_inputs evs
  | _ :: evs => decode_inputs evs
  end.

(** [pre] put in front of the elements of a slice that is not nil. *)
Definition prepend {A} (pre : list A) (s : slice A) : slice A :=
  match s with
  | SNil => SNil
  | SOf l => SOf (pre ++ l)
  end.

Definition result_prepend (pre : list Certificate)
    (res : slice Certificate * option error) : slice Certificate * option error :=
  (prepend pre res.1, res.2).

Definition flow_prepend (pre : list Certificate) (flow : Flow) : Flow :=
  match flow with
  | Break certs => Break (prepend pre certs)
  | Return certs err => Return (prepend pre certs) err
  | Continue loop certs => Continue loop (prepend pre certs)
  end.

Definition Exec_map {A B} (g : A -> B) (x : Exec A) : Exec B :=
  match x with
  | Val a => Val (g a)
  | Panic msg => Panic msg
  | OutOfFuel => OutOfFuel
  end.

Definition run_map {World A B} (g : A -> B)
    (run : Exec A * World * list Event) : Exec B * World * list Event :=
  (Exec_map g run.1.1, run.1.2, run.2).

(** ** Test doubles and sample certificates

    The collaborators of the resolver are injected, so that the loop can be
    exercised with deterministic fakes: a fetcher that answers from a table, a
    decoder that recognises a few byte strings, and toy helpers. *)

Module Sample.

Definition tableFetcher : Type := list (string * Result bytes).

Fixpoint tableFetcher_Fetch (f : tableFetcher) (url : string) : Result bytes :=
  match f with
  | [] => Err "connection refused"
  | (u, res) :: f => if bool_decide (u = url) then res else tableFetcher_Fetch f url
  end.

#[export] Instance tableFetcher_fetcher : fetcher (World := unit) tableFetcher :=
  fun f url w => (tableFetcher_Fetch f url, w).

Definition intermediateURL : string := "http://ca.example.com/intermediate.crt".
Definition rootURL : string := "http://ca.example.com/root.crt".
Definition mirrorURL : string := "http://mirror.example.com/intermediate.crt".
Definition cycleURL : string := "http://ca.example.com/cycle.crt".

Definition leaf : Certificate :=
  {| Subject := "leaf.example.com"; Issuer := "Example Intermediate CA";
     SerialNumber := 1001; PublicKey := ["a"%byte]; Signature := ["i"%byte];
     IssuingCertificateURL := SOf [intermediateURL; mirrorURL] |}.

Definition otherLeaf : Certificate :=
  {| Subject := "www.example.org"; Issuer := "Example Intermediate CA";
     SerialNumber := 1002; PublicKey := ["b"%byte]; Signature := ["i"%byte];
     IssuingCertificateURL := SOf [mirrorURL] |}.

Definition intermediate : Certificate :=
  {| Subject := "Example Intermediate CA"; Issuer := "Example Root CA";
     SerialNumber := 7; PublicKey := ["i"%byte]; Signature := ["r"%byte];
     IssuingCertificateURL := SOf [rootURL] |}.

Definition root : Certificate :=
  {| Subject := "Example Root CA"; Issuer := "Example Root CA";
     SerialNumber := 1; PublicKey := ["r"%byte]; Signature := ["r"%byte];
     IssuingCertificateURL := SNil |}.

(** A certificate whose issuer URL serves the certificate itself, although
    it is not self-signed: a cyclic issuer graph. *)
Definition cyclic : Certificate :=
  {| Subject := "Cyclic CA"; Issuer := "Another CA";
     SerialNumber := 5; PublicKey := ["c"%byte]; Signature := ["d"%byte];
     IssuingCertificateURL := SOf [cycleURL] |}.

(** A leaf without an issuer URL, and one whose list of issuer URLs is
    present but empty. *)
Definition plainLeaf : Certificate :=
  {| Subject := "plain.example.com"; Issuer := "Example Root CA";
     SerialNumber := 1003; PublicKey := ["p"%byte]; Signature := ["r"%byte];
     IssuingCertificateURL := SNil |}.

Definition emptyListLeaf : Certificate :=
  {| Subject := "empty.example.com"; Issuer := "Example Root CA";
     SerialNumber := 1004; PublicKey := ["e"%byte]; Signature := ["r"%byte];
     IssuingCertificateURL := SOf [] |}.

Definition decode : decoder :=
  fun data =>
    match data with
    | ["I"%byte] => Ok intermediate
    | ["R"%byte] => Ok root
    | ["C"%byte] => Ok cyclic
    | _ => Err "asn1: structure error"
    end.

(** The toy signature check: a signature names the key that made it. *)
Definition checkSignature (key : bytes) (cert : Certificate) : bool :=
  bool_decide (Signature cert = key).

#[export] Instance sampleHelpers : helpers :=
  {| decodeCertificate := decode;
     isSelfSigned := IsRoot checkSignature;
     prepareCertificateLogger := fun log cert =>
       WithField "Subject" (Subject cert) log;
     preparePrefixedCertificateLogger := fun log cert prefix =>
       WithField (prefix +:+ "Subject") (Subject cert) log |}.

Definition resolverWith (f : tableFetcher) (limit : Z) : urlResolver tableFetcher :=
  {| logger := ∅; fetcher' := f; decoder' := decode; loopLimit := limit |}.

(** Every certificate is served where its subject's issuer URL points. *)
Definition healthy : tableFetcher :=
  [(intermediateURL, Ok ["I"%byte]); (rootURL, Ok ["R"%byte]);
   (cycleURL, Ok ["C"%byte])].

(** The issuer URL of the leaf is down, its mirror is up. *)
Definition primaryDown : tableFetcher :=
  [(intermediateURL, Err "connection refused"); (mirrorURL, Ok ["I"%byte])].

(** Nothing can be reached. *)
Definition unreachable : tableFetcher := [].

(** The issuer URL of the leaf serves bytes that are no certificate. *)
Definition garbled : tableFetcher :=
  [(intermediateURL, Ok ["<"%byte; "h"%byte])].

(** A network in which every request is answered with status 500; the
    body of the answer for the intermediate's URL happens to be a
    certificate, the others are an error page. *)
#[export] Instance status500 : http (World := unit) :=
  fun _ url w =>
    (GetResponse {| StatusCode := 500;
                    Body := if bool_decide (url = intermediateURL)
                            then Ok ["R"%byte] else Ok ["<"%byte] |}, w).

(** A self-signed certificate that nevertheless carries an issuer URL. *)
Definition rootWithURL : Certificate :=
  {| Subject := "Example Root CA"; Issuer := "Example Root CA";
     SerialNumber := 2; PublicKey := ["r"%byte]; Signature := ["r"%byte];
     IssuingCertificateURL := SOf [rootURL] |}.

(** A certificate whose issuer URL serves a certificate with a list of
    issuer URLs that is present but empty. *)
Definition emptyListURL : string := "http://ca.example.com/empty.crt".

Definition leafOfEmpty : Certificate :=
  {| Subject := "child.example.com"; Issuer := "empty.example.com";
     SerialNumber := 1005; PublicKey := ["f"%byte]; Signature := ["e"%byte];
     IssuingCertificateURL := SOf [emptyListURL] |}.

Definition decodeWithEmpty : decoder :=
  fun data =>
    match data with
    | ["E"%byte] => Ok emptyListLeaf
    | _ => decode data
    end.

Definition servesEmpty : tableFetcher := [(emptyListURL, Ok ["E"%byte])].

(** A fetcher that answers from a table and counts the requests it gets:
    here the world is the number of requests made so far. *)
Record countingFetcher : Type := mkCountingFetcher {
  table : tableFetcher
}.

#[export] Instance countingFetcher_fetcher : fetcher (World := nat) countingFetcher :=
  fun f url n => (tableFetcher_Fetch (table f) url, S n).

Definition countingResolver (f : tableFetcher) (limit : Z)
  : urlResolver countingFetcher :=
  {| logger := ∅; fetcher' := {| table := f |}; decoder' := decode;
     loopLimit := limit |}.

(** A network in which no request gets through. *)
Definition networkDown : http (World := unit) :=
  fun _ url w => (GetError None "dial tcp: connection refused", w).

End Sample.

(** * Properties *)

Section Properties.

Context {World : Type} `{!helpers} {F : Type} `{!fetcher (World := World) F}.

Implicit Types (r : urlResolver F) (w : World) (l : list Certificate).
Implicit Types (certs chain : slice Certificate) (evs : list Event).

Lemma last_index l cert :
  last l = Some cert ->
  index (SOf l) (len (SOf l) - 1) = ret (World := World) cert.
Proof.
  intros Hlast. unfold index, len. simpl.
  assert (Hlen : (0 < length l)%nat).
  { destruct l; [discriminate | simpl; lia]. }
  rewrite bool_decide_eq_false_2 by lia.
  replace (Z.to_nat (Z.of_nat (length l) - 1)) with (pred (length l)) by lia.
  rewrite <- last_lookup, Hlast. reflexivity.
Qed.

Lemma iteration_pass r loop l w :
  l <> [] -> pass r loop l w (iteration r loop (SOf l) w).
Proof.
  intros Hne.
  destruct (last l) as [cert|] eqn:Hlast;
    [| apply last_None in Hlast; contradiction].
  unfold iteration.
  destruct (bool_decide (loop + 1 >= loopLimit r)) eqn:Hlim.
  { apply bool_decide_eq_true_1 in Hlim. exact (pass_limit _ _ _ _ Hlim). }
  apply bool_decide_eq_false_1 in Hlim.
  assert (Hlt : loop + 1 < loopLimit r) by lia.
  rewrite (last_index _ _ Hlast).
  unfold bind at 1, ret at 1.
  destruct (IssuingCertificateURL cert) as [|urls] eqn:Hurls; simpl is_nil.
  { exact (pass_no_url _ _ _ _ cert Hlt Hlast Hurls). }
  unfold fetchIssuerCertificate. rewrite Hurls.
  destruct urls as [|url rest].
  { exact (pass_out_of_range _ _ _ _ cert Hlt Hlast Hurls). }
  unfold bind, index, callFetch, callDecode, Warning, Debug, emit, ret. simpl.
  destruct (Fetch (fetcher' r) url w) as [[data|cause] w1] eqn:Hfetch.
  - destruct (decoder' r data) as [newCert|cause] eqn:Hdec.
    + unfold append. simpl.
      destruct (isSelfSigned newCert) eqn:Hroot.
      * exact (pass_root _ _ _ _ cert url rest data newCert w1
                 Hlt Hlast Hurls Hfetch Hdec Hroot).
      * exact (pass_next _ _ _ _ cert url rest data newCert w1
                 Hlt Hlast Hurls Hfetch Hdec Hroot).
    + exact (pass_decode_failure _ _ _ _ cert url rest data cause w1
               Hlt Hlast Hurls Hfetch Hdec).
  - exact (pass_fetch_failure _ _ _ _ cert url rest cause w1
             Hlt Hlast Hurls Hfetch).
Qed.

(** With fuel beyond the number of passes that the limit allows, the loop
    of the model is a run: the fuel is not what stops it. *)
Lemma resolveLoop_runs r fuel loop l w :
  l <> [] ->
  (Z.to_nat (loopLimit r - loop - 1) < fuel)%nat ->
  runs r loop l w (resolveLoop r fuel loop (SOf l) w).
Proof.
  revert loop l w.
  induction fuel as [|fuel IH]; intros loop l w Hne Hfuel; [lia|].
  pose proof (iteration_pass r loop l w Hne) as Hpass.
  simpl. unfold bind at 1.
  destruct (iteration r loop (SOf l) w) as [[x w1] evs1].
  destruct x as [[certs1|certs1 err|loop1 certs1]|msg|].
  - unfold ret. rewrite app_nil_r. by apply runs_break.
  - unfold ret. rewrite app_nil_r. by apply runs_return.
  - inversion Hpass; subst.
    specialize (IH (loop + 1) (l ++ [newCert]) w1).
    destruct (resolveLoop r fuel (loop + 1) (SOf (l ++ [newCert])) w1)
      as [[x w2] evs2].
    eapply runs_continue; [exact Hpass|].
    apply IH; [by destruct l | lia].
  - by apply runs_panic.
  - inversion Hpass.
Qed.

(** Beyond that number the amount of fuel makes no difference. *)
Lemma resolveLoop_fuel r fuel fuel' loop l w :
  l <> [] ->
  (Z.to_nat (loopLimit r - loop - 1) < fuel)%nat ->
  (Z.to_nat (loopLimit r - loop - 1) < fuel')%nat ->
  resolveLoop r fuel loop (SOf l) w = resolveLoop r fuel' loop (SOf l) w.
Proof.
  revert fuel' loop l w.
  induction fuel as [|fuel IH]; intros fuel' loop l w Hne Hfuel Hfuel'; [lia|].
  destruct fuel' as [|fuel']; [lia|].
  pose proof (iteration_pass r loop l w Hne) as Hpass.
  cbn [resolveLoop]. unfold bind at 1 2.
  destruct (iteration r loop (SOf l) w) as [[x w1] evs1].
  destruct x as [[certs1|certs1 err|loop1 certs1]|msg|]; try reflexivity.
  inversion Hpass; subst.
  rewrite (IH fuel' (loop + 1) (l ++ [newCert]) w1);
    [reflexivity | by destruct l | lia | lia].
Qed.

Lemma Resolve_empty r certs w :
  elems certs = [] -> Resolve r certs w = (Val (SNil, None), w, []).
Proof.
  intros Hempty. unfold Resolve, len. rewrite Hempty. reflexivity.
Qed.

Lemma Resolve_runs r l w :
  l <> [] -> runs r 0 l w (Resolve r (SOf l) w).
Proof.
  intros Hne. unfold Resolve.
  rewrite bool_decide_eq_false_2
    by (unfold len; destruct l; [done | simpl; lia]).
  apply resolveLoop_runs; [done | lia].
Qed.

Lemma fetches_app evs1 evs2 :
  fetches (evs1 ++ evs2) = fetches evs1 ++ fetches evs2.
Proof.
  induction evs1 as [|[url res|data res|lvl log msg] evs1 IH]; simpl;
    by rewrite ?IH.
Qed.

Lemma decoded_app evs1 evs2 :
  decoded (evs1 ++ evs2) = decoded evs1 ++ decoded evs2.
Proof.
  induction evs1 as [|[url res|data [c|e]|lvl log msg] evs1 IH]; simpl;
    by rewrite ?IH.
Qed.

(** Membership of an event in the few events of one pass. *)
Ltac elem_of_pass H :=
  repeat (apply elem_of_cons in H as [H|H];
          [try discriminate H; try (injection H as ?; subst)|]);
  try (apply elem_of_nil in H; contradiction).

Lemma runs_success r loop l w run chain :
  runs r loop l w run ->
  outcome run = Val (chain, None) ->
  chain = SOf (l ++ decoded (trace run)).
Proof.
  intros Hruns. revert chain.
  induction Hruns as [loop l w certs w1 evs Hpass
                     |loop l w certs err w1 evs Hpass
                     |loop l w msg w1 evs Hpass
                     |loop l w loop1 l1 w1 evs1 x w2 evs2 Hpass Hruns IH];
    intros chain Hout; unfold outcome, trace in *; simpl in *.
  - injection Hout as <-.
    inversion Hpass; subst; simpl; by rewrite ?app_nil_r.
  - inversion Hpass; subst; discriminate.
  - discriminate.
  - specialize (IH _ Hout). inversion Hpass; subst.
    rewrite decoded_app. simpl. by rewrite <- app_assoc.
Qed.

Lemma runs_failure r loop l w run chain err :
  runs r loop l w run ->
  outcome run = Val (chain, Some err) ->
  chain = SNil.
Proof.
  induction 1 as [loop l w certs w1 evs Hpass
                 |loop l w certs err' w1 evs Hpass
                 |loop l w msg w1 evs Hpass
                 |loop l w loop1 l1 w1 evs1 x w2 evs2 Hpass Hruns IH];
    unfold outcome in *; simpl in *; intros Hout.
  - discriminate.
  - inversion Hpass; subst; by injection Hout as <- _.
  - discriminate.
  - auto.
Qed.

Lemma runs_outcome r loop l w run :
  runs r loop l w run -> outcome run <> OutOfFuel.
Proof.
  induction 1; unfold outcome in *; simpl in *; try discriminate; auto.
Qed.

Lemma runs_fetch_count r loop l w run :
  runs r loop l w run ->
  (length (fetches (trace run)) <= Z.to_nat (loopLimit r - loop - 1))%nat.
Proof.
  induction 1 as [loop l w certs w1 evs Hpass
                 |loop l w certs err w1 evs Hpass
                 |loop l w msg w1 evs Hpass
                 |loop l w loop1 l1 w1 evs1 x w2 evs2 Hpass Hruns IH];
    unfold trace in *; simpl in *.
  1-3: inversion Hpass; subst; simpl; lia.
  inversion Hpass; subst. rewrite fetches_app. simpl. lia.
Qed.

Lemma runs_limit r loop l w run log :
  runs r loop l w run ->
  EvLog WarningLevel log limitExceededMessage ∈ trace run ->
  outcome run = Val (SOf (l ++ decoded (trace run)), None).
Proof.
  induction 1 as [loop l w certs w1 evs Hpass
                 |loop l w certs err w1 evs Hpass
                 |loop l w msg w1 evs Hpass
                 |loop l w loop1 l1 w1 evs1 x w2 evs2 Hpass Hruns IH];
    unfold outcome, trace in *; simpl in *; intros Hin.
  - inversion Hpass; subst; simpl; rewrite ?app_nil_r; try done;
      exfalso; elem_of_pass Hin.
  - inversion Hpass; subst; exfalso; elem_of_pass Hin.
  - inversion Hpass; subst. by apply elem_of_nil in Hin.
  - inversion Hpass; subst.
    apply elem_of_app in Hin as [Hin|Hin]; [exfalso; elem_of_pass Hin|].
    rewrite decoded_app. simpl. rewrite (IH Hin). by rewrite <- app_assoc.
Qed.

(** A failed fetch is the last but one event of the run: only its warning
    record follows. The record is made by the logger of the certificate that
    was being resolved, the last one of the chain built so far. *)
Lemma runs_fetch_failure r loop l w run url cause :
  runs r loop l w run ->
  EvFetch url (Err cause) ∈ trace run ->
  outcome run = Val (SNil, Some (fetchErrorMessage cause)) /\
  exists pre cert rest,
    last (l ++ decoded (trace run)) = Some cert /\
    IssuingCertificateURL cert = SOf (url :: rest) /\
    trace run =
      pre ++ [EvFetch url (Err cause);
              EvLog WarningLevel
                (WithField "issuerURL" url (WithError cause (fetchLogger r cert)))
                "Remote certificate fetching error"].
Proof.
  induction 1 as [loop l w certs w1 evs Hpass
                 |loop l w certs err w1 evs Hpass
                 |loop l w msg w1 evs Hpass
                 |loop l w loop1 l1 w1 evs1 x w2 evs2 Hpass Hruns IH];
    unfold outcome, trace in *; simpl in *; intros Hin.
  - inversion Hpass; subst; exfalso; elem_of_pass Hin.
  - inversion Hpass; subst; elem_of_pass Hin.
    split; [done|]. exists [], cert, rest. simpl. rewrite app_nil_r. auto.
  - inversion Hpass; subst. by apply elem_of_nil in Hin.
  - assert (Hin2 : EvFetch url (Err cause) ∈ evs2).
    { inversion Hpass; subst.
      apply elem_of_app in Hin as [Hin|Hin]; [exfalso; elem_of_pass Hin|done]. }
    assert (Hdec : l ++ decoded evs1 = l1) by (by inversion Hpass; subst).
    destruct (IH Hin2) as (Hout & pre & cert' & rest' & Hlast & Hurl & Htrace).
    split; [exact Hout|].
    exists (evs1 ++ pre), cert', rest'. subst evs2.
    split_and!; [| done | by rewrite app_assoc].
    by rewrite decoded_app, app_assoc, Hdec.
Qed.

Lemma runs_decode_failure r loop l w run data cause :
  runs r loop l w run ->
  EvDecode data (Err cause) ∈ trace run ->
  outcome run = Val (SNil, Some (decodeErrorMessage cause)).
Proof.
  induction 1 as [loop l w certs w1 evs Hpass
                 |loop l w certs err w1 evs Hpass
                 |loop l w msg w1 evs Hpass
                 |loop l w loop1 l1 w1 evs1 x w2 evs2 Hpass Hruns IH];
    unfold outcome, trace in *; simpl in *; intros Hin.
  - inversion Hpass; subst; exfalso; elem_of_pass Hin.
  - inversion Hpass; subst; elem_of_pass Hin. done.
  - inversion Hpass; subst. by apply elem_of_nil in Hin.
  - inversion Hpass; subst.
    apply elem_of_app in Hin as [Hin|Hin]; [exfalso; elem_of_pass Hin|].
    auto.
Qed.

(** A pass fetches nothing, or the first issuer URL of the certificate that
    ends the chain, and nothing else. *)
Lemma pass_fetches r loop l w x w1 evs cert0 :
  pass r loop l w (x, w1, evs) ->
  last l = Some cert0 ->
  fetches evs = [] \/ exists url, fetches evs = [url] /\ first_url_of cert0 url.
Proof.
  intros Hpass Hlast.
  inversion Hpass; subst; simpl; auto;
    right; exists url; (split; [done|]);
    replace cert0 with cert by congruence; by exists rest.
Qed.

(** The fetch number [i] of a run asks for the first issuer URL of the
    certificate that ended the chain at that time: the last certificate of
    the input for the first fetch, the certificate decoded last for the
    others. *)
Lemma runs_first_url r loop l w run cert0 i url :
  runs r loop l w run ->
  last l = Some cert0 ->
  fetches (trace run) !! i = Some url ->
  exists cert, (cert0 :: decoded (trace run)) !! i = Some cert /\
               first_url_of cert url.
Proof.
  intros Hruns. revert cert0 i.
  induction Hruns as [loop l w certs w1 evs Hpass
                     |loop l w certs err w1 evs Hpass
                     |loop l w msg w1 evs Hpass
                     |loop l w loop1 l1 w1 evs1 x w2 evs2 Hpass Hruns IH];
    unfold trace in *; simpl in *; intros cert0 i Hlast Hi.
  1-3: destruct (pass_fetches _ _ _ _ _ _ _ _ Hpass Hlast)
         as [Hnone|(url0 & Hone & Hfirst)];
       [by rewrite Hnone in Hi|];
       rewrite Hone in Hi; destruct i as [|i]; [|done];
       injection Hi as <-; by exists cert0.
  inversion Hpass; subst. rewrite fetches_app in Hi. rewrite decoded_app.
  simpl in *. destruct i as [|i]; simpl in *.
  - injection Hi as <-. exists cert0. split; [done|].
    replace cert0 with cert by congruence. by eexists.
  - apply (IH newCert i); [apply last_snoc | done].
Qed.

(** When the last record of a run reports that a root was fetched, the run
    returns a chain and no error, and the root detector accepts the last
    certificate of that chain. *)
Lemma runs_root r loop l w run log :
  runs r loop l w run ->
  last (trace run) = Some (EvLog DebugLevel log rootReachedMessage) ->
  exists l' cert,
    outcome run = Val (SOf l', None) /\
    l' = l ++ decoded (trace run) /\
    last l' = Some cert /\
    isSelfSigned cert = true.
Proof.
  induction 1 as [loop l w certs w1 evs Hpass
                 |loop l w certs err w1 evs Hpass
                 |loop l w msg w1 evs Hpass
                 |loop l w loop1 l1 w1 evs1 x w2 evs2 Hpass Hruns IH];
    unfold outcome, trace in *; simpl in *; intros Hlast.
  - inversion Hpass; subst; simpl in *; try discriminate.
    exists (l ++ [newCert]), newCert. by rewrite last_snoc.
  - inversion Hpass; subst; simpl in *; discriminate.
  - inversion Hpass; subst; simpl in *; discriminate.
  - inversion Hpass; subst. rewrite last_app in Hlast.
    destruct (last evs2) as [ev|] eqn:Hev; [|simpl in Hlast; discriminate].
    destruct (IH Hlast) as (l' & cert' & Hout & Hchain & Hend & Hroot).
    exists l', cert'. rewrite decoded_app. simpl.
    rewrite <- app_assoc in Hchain. done.
Qed.

(** A call on a chain without elements returns at once; on any other
    chain it is a run of the loop entered with the counter at zero. *)
Lemma Resolve_cases r certs w :
  (elems certs = [] /\ Resolve r certs w = (Val (SNil, None), w, [])) \/
  (elems certs <> [] /\ runs r 0 (elems certs) w (Resolve r certs w)).
Proof.
  destruct certs as [|[|cert l]].
  - left. split; [done|]. by apply Resolve_empty.
  - left. split; [done|]. by apply Resolve_empty.
  - right. split; [done|]. by apply Resolve_runs.
Qed.

Lemma Resolve_unfold r l w :
  l <> [] ->
  Resolve r (SOf l) w =
  match iteration r 0 (SOf l) w with
  | (Val (Break certs), w1, evs) => (Val (certs, None), w1, evs ++ [])
  | (Val (Return certs err), w1, evs) => (Val (certs, err), w1, evs ++ [])
  | (Val (Continue loop certs), w1, evs) =>
      match resolveLoop r (Z.to_nat (loopLimit r)) loop certs w1 with
      | (x, w2, evs2) => (x, w2, evs ++ evs2)
      end
  | (Panic msg, w1, evs) => (Panic msg, w1, evs)
  | (OutOfFuel, w1, evs) => (OutOfFuel, w1, evs)
  end.
Proof.
  intros Hne. unfold Resolve.
  rewrite bool_decide_eq_false_2
    by (unfold len; destruct l; [done | simpl; lia]).
  cbn [resolveLoop]. unfold bind at 1.
  destruct (iteration r 0 (SOf l) w) as [[[[certs1|certs1 err|loop1 certs1]|msg|] w1] evs];
    reflexivity.
Qed.

(** The way a pass goes is settled by what it meets. *)
Ltac settle_pass r loop l w Hne :=
  let Hpass := fresh "Hpass" in
  pose proof (iteration_pass r loop l w Hne) as Hpass;
  destruct Hpass; first [lia | congruence].

Lemma iteration_no_url r loop l w cert :
  last l = Some cert ->
  IssuingCertificateURL cert = SNil ->
  exists log lvl msg,
    iteration r loop (SOf l) w = (Val (Break (SOf l)), w, [EvLog lvl log msg]).
Proof.
  intros Hlast Hurls.
  assert (Hne : l <> []) by (intros ->; discriminate).
  pose proof (iteration_pass r loop l w Hne) as Hpass.
  destruct Hpass; try congruence; by do 3 eexists.
Qed.

Lemma iteration_out_of_range r loop l w cert :
  loop + 1 < loopLimit r ->
  last l = Some cert ->
  IssuingCertificateURL cert = SOf [] ->
  iteration r loop (SOf l) w = (Panic "index out of range", w, []).
Proof.
  intros Hlt Hlast Hurls.
  assert (Hne : l <> []) by (intros ->; discriminate).
  settle_pass r loop l w Hne.
Qed.

Lemma iteration_decode_failure r loop l w cert url rest data cause w1 :
  loop + 1 < loopLimit r ->
  last l = Some cert ->
  IssuingCertificateURL cert = SOf (url :: rest) ->
  Fetch (fetcher' r) url w = (Ok data, w1) ->
  decoder' r data = Err cause ->
  iteration r loop (SOf l) w =
  (Val (Return SNil (Some (decodeErrorMessage cause))), w1,
   [EvFetch url (Ok data);
    EvDecode data (Err cause);
    EvLog WarningLevel (WithError cause (fetchLogger r cert))
      "Certificate decoding error"]).
Proof.
  intros Hlt Hlast Hurls Hfetch Hdec.
  assert (Hne : l <> []) by (intros ->; discriminate).
  settle_pass r loop l w Hne.
Qed.

(** ** The claims about [Resolve] *)

(** C1. When a fetch or a decode of an issuer certificate fails during
    [Resolve], the call returns a nil chain and a non-nil error whose
    message is a fixed context followed by the message of the cause; whenever
    an error is returned the chain returned with it is nil, so that no part
    of the chain built so far comes back with the error. *)
Theorem Resolve_failure_aborts r certs w :
  let run := Resolve r certs w in
  (forall url cause,
     EvFetch url (Err cause) ∈ trace run ->
     outcome run =
       Val (SNil, Some ("error while fetching issuer certificate: " +:+
                        ("remote fetch failure: " +:+ cause)))) /\
  (forall data cause,
     EvDecode data (Err cause) ∈ trace run ->
     outcome run =
       Val (SNil, Some ("error while fetching issuer certificate: " +:+
                        ("decoding failure: " +:+ cause)))) /\
  (forall chain err, outcome run = Val (chain, Some err) -> chain = SNil).
Proof.
  intros run. subst run.
  destruct (Resolve_cases r certs w) as [[_ ->]|[_ Hruns]].
  - unfold outcome, trace; simpl. split_and!.
    + intros url cause Hin. by apply elem_of_nil in Hin.
    + intros data cause Hin. by apply elem_of_nil in Hin.
    + intros chain err Hout. discriminate.
  - split_and!.
    + intros url cause Hin.
      by destruct (runs_fetch_failure _ _ _ _ _ _ _ Hruns Hin).
    + intros data cause Hin. exact (runs_decode_failure _ _ _ _ _ _ _ Hruns Hin).
    + intros chain err Hout. exact (runs_failure _ _ _ _ _ _ _ Hruns Hout).
Qed.

(** C3. Whatever the chain and the loop limit N, [Resolve] comes to an end
    (the loop of the model never stops for want of fuel), after at most N-1
    fetches (none when N is below one); and when the limit is reached, which
    the warning record tells, it returns without error the chain built so
    far: the input followed by the certificates decoded on the way. *)
Theorem Resolve_loop_limit r certs w :
  let run := Resolve r certs w in
  outcome run <> OutOfFuel /\
  (length (fetches (trace run)) <= Z.to_nat (loopLimit r - 1))%nat /\
  (forall log,
     EvLog WarningLevel log "urlResolver loop limit exceeded; exiting the loop"
       ∈ trace run ->
     outcome run = Val (SOf (elems certs ++ decoded (trace run)), None)).
Proof.
  intros run. subst run.
  destruct (Resolve_cases r certs w) as [[_ ->]|[_ Hruns]].
  - unfold outcome, trace; simpl. split_and!; [done | lia |].
    intros log Hin. by apply elem_of_nil in Hin.
  - split_and!.
    + exact (runs_outcome _ _ _ _ _ Hruns).
    + pose proof (runs_fetch_count _ _ _ _ _ Hruns) as Hcount.
      by replace (loopLimit r - 0 - 1) with (loopLimit r - 1) in Hcount by lia.
    + intros log Hin. exact (runs_limit _ _ _ _ _ _ Hruns Hin).
Qed.

(** C4. A chain that [Resolve] returns is the input chain followed by the
    certificates decoded during the call: every element of the input is
    found at its place, nothing is removed or moved, and the first element
    is the first element of the input. *)
Theorem Resolve_appends_only r certs w chain :
  outcome (Resolve r certs w) = Val (chain, None) ->
  elems chain = elems certs ++ decoded (trace (Resolve r certs w)) /\
  (forall i cert, elems certs !! i = Some cert -> elems chain !! i = Some cert) /\
  head (elems chain) = head (elems certs).
Proof.
  intros Hout.
  assert (Helems : elems chain = elems certs ++ decoded (trace (Resolve r certs w))).
  { destruct (Resolve_cases r certs w) as [[Hnil Heq]|[_ Hruns]].
    - rewrite Heq in Hout |- *. unfold outcome, trace in *; simpl in *.
      injection Hout as <-. by rewrite Hnil.
    - by rewrite (runs_success _ _ _ _ _ _ Hruns Hout). }
  split_and!; [done | |].
  - intros i cert Hi. rewrite Helems. by apply lookup_app_l_Some.
  - rewrite Helems. destruct (elems certs) as [|cert l] eqn:Hcerts; [|done].
    by rewrite (Resolve_empty r certs w Hcerts).
Qed.

(** C5, as amended. When a fetch fails during [Resolve], the error
    returned wraps the cause and nothing more: its message is a fixed context
    followed by the message of the cause. The URL that was fetched and the
    certificate that was being resolved (the last of the chain built so
    far, whose first issuer URL it is) are told by the warning record that
    ends the trace of the call, made with the logger prepared for that
    certificate and carrying the URL and the cause as fields. *)
Theorem Resolve_fetch_failure_report r certs w url cause :
  let run := Resolve r certs w in
  EvFetch url (Err cause) ∈ trace run ->
  outcome run =
    Val (SNil, Some ("error while fetching issuer certificate: " +:+
                     ("remote fetch failure: " +:+ cause))) /\
  exists cert log,
    last (elems certs ++ decoded (trace run)) = Some cert /\
    first_url_of cert url /\
    last (trace run) =
      Some (EvLog WarningLevel log "Remote certificate fetching error") /\
    log = WithField "issuerURL" url
            (WithError cause
               (WithField "method" "fetchIssuerCertificate"
                  (prepareCertificateLogger (logger r) cert))) /\
    log !! "issuerURL" = Some url /\
    log !! "error" = Some cause.
Proof.
  intros run Hin. subst run.
  destruct (Resolve_cases r certs w) as [[_ Heq]|[_ Hruns]].
  { rewrite Heq in Hin. by apply elem_of_nil in Hin. }
  destruct (runs_fetch_failure _ _ _ _ _ _ _ Hruns Hin)
    as (Hout & pre & cert & rest & Hlast & Hurls & Htrace).
  split; [exact Hout|].
  exists cert. eexists. split_and!; [exact Hlast | by exists rest | | reflexivity | |].
  - rewrite Htrace.
    by rewrite (last_app_cons pre), last_cons_cons, last_singleton.
  - unfold WithField. by rewrite lookup_insert_eq.
  - unfold WithError, WithField.
    by rewrite lookup_insert_ne, lookup_insert_eq.
Qed.

(** C6. With the root detector of the design (the issuer identity is the
    subject identity and the signature verifies against the certificate's
    own public key), when [Resolve] stops because the certificate it has
    just appended is a root, which its last record tells, it returns a chain
    without error, and the last certificate of that chain meets both
    conditions. *)
Theorem Resolve_root_reached (CheckSignature : bytes -> Certificate -> bool)
    r certs w log :
  (forall cert, isSelfSigned cert = IsRoot CheckSignature cert) ->
  last (trace (Resolve r certs w)) =
    Some (EvLog DebugLevel log
            "Fetched issuer certificate is a ROOT certificate so exiting the loop") ->
  exists l cert,
    outcome (Resolve r certs w) = Val (SOf l, None) /\
    last l = Some cert /\
    Issuer cert = Subject cert /\
    CheckSignature (PublicKey cert) cert = true.
Proof.
  intros Hdetector Hlast.
  destruct (Resolve_cases r certs w) as [[_ Heq]|[_ Hruns]].
  { rewrite Heq in Hlast. discriminate. }
  destruct (runs_root _ _ _ _ _ _ Hruns Hlast)
    as (l & cert & Hout & _ & Hend & Hroot).
  exists l, cert. rewrite Hdetector in Hroot. unfold IsRoot in Hroot.
  apply andb_true_iff in Hroot as [Hsame Hsig].
  apply bool_decide_eq_true_1 in Hsame. done.
Qed.

(** C8, at the failing inputs. When the last certificate of the chain has a
    list of issuer URLs that is present but empty and the loop limit lets a
    pass begin, the nil test lets the certificate through and the access to
    the first URL is out of range: [Resolve] panics. *)
Theorem Resolve_empty_url_list_panics r l cert w :
  last l = Some cert ->
  IssuingCertificateURL cert = SOf [] ->
  1 < loopLimit r ->
  Resolve r (SOf l) w = (Panic "index out of range", w, []).
Proof.
  intros Hlast Hurls Hlimit.
  assert (Hne : l <> []) by (intros ->; discriminate).
  rewrite (Resolve_unfold r l w Hne).
  by rewrite (iteration_out_of_range r 0 l w cert) by (done || lia).
Qed.

(** C9. The fetches of a call are, in order, of the first issuer URL of the
    certificate that ended the chain when the fetch was made: the last
    certificate of the input, then each certificate decoded. A fetch that
    fails is followed by its warning record and by nothing else: no other
    URL of the certificate is tried. *)
Theorem Resolve_fetches_first_url r certs w :
  let run := Resolve r certs w in
  (forall i url,
     fetches (trace run) !! i = Some url ->
     exists cert,
       (tail_of certs ++ decoded (trace run)) !! i = Some cert /\
       exists rest, IssuingCertificateURL cert = SOf (url :: rest)) /\
  (forall url cause,
     EvFetch url (Err cause) ∈ trace run ->
     exists pre log,
       trace run =
         pre ++ [EvFetch url (Err cause);
                 EvLog WarningLevel log "Remote certificate fetching error"]).
Proof.
  intros run. subst run.
  destruct (Resolve_cases r certs w) as [[_ ->]|[Hne Hruns]].
  - unfold trace; simpl. split.
    + intros i url Hi. discriminate.
    + intros url cause Hin. by apply elem_of_nil in Hin.
  - split.
    + intros i url Hi. unfold tail_of.
      destruct (last (elems certs)) as [cert0|] eqn:Hlast;
        [|by apply last_None in Hlast].
      exact (runs_first_url _ _ _ _ _ _ _ _ Hruns Hlast Hi).
    + intros url cause Hin.
      destruct (runs_fetch_failure _ _ _ _ _ _ _ Hruns Hin)
        as (_ & pre & cert & rest & _ & _ & Htrace).
      by do 2 eexists.
Qed.

(** C10. On a chain with fewer than one element, nil or empty, [Resolve]
    returns a nil chain and no error; it fetches nothing, logs nothing and
    leaves the world as it was. *)
Theorem Resolve_empty_chain r certs w :
  len certs < 1 ->
  Resolve r certs w = (Val (SNil, None), w, []).
Proof.
  intros Hlen. apply Resolve_empty.
  unfold len in Hlen. destruct (elems certs); [done | simpl in Hlen; lia].
Qed.

End Properties.

(** ** The HTTP fetcher *)

Section HTTP.

Context {World : Type} `{!helpers} `{!http (World := World)}.

(** C2, as amended. [Fetch] reports an error exactly when the request
    fails or the body cannot be read, and the error is that cause; a response
    is not looked at for its status code, so that the body of a response
    with status 500 is returned as data. When the issuer URL of a leaf is
    answered with status 500, [Resolve] hands the body to the decoder, and
    when the decoder rejects it the call returns a nil chain and the error
    of a decoding failure, wrapping the decoder's cause. *)
Theorem httpFetcher_Fetch_status (f : httpFetcher) (url : string) (w : World) :
  (forall cause w1,
     Fetch f url w = (Err cause, w1) <->
     (exists resp, http_Get (client f) url w = (GetError resp cause, w1)) \/
     (exists resp, http_Get (client f) url w = (GetResponse resp, w1) /\
                   Body resp = Err cause)) /\
  (forall resp data w1,
     http_Get (client f) url w = (GetResponse resp, w1) ->
     Body resp = Ok data ->
     Fetch f url w = (Ok data, w1)) /\
  (forall (r : urlResolver httpFetcher) cert rest resp data cause w1,
     fetcher' r = f ->
     1 < loopLimit r ->
     IssuingCertificateURL cert = SOf (url :: rest) ->
     http_Get (client f) url w = (GetResponse resp, w1) ->
     StatusCode resp = 500 ->
     Body resp = Ok data ->
     decoder' r data = Err cause ->
     outcome (Resolve r (SOf [cert]) w) =
       Val (SNil, Some ("error while fetching issuer certificate: " +:+
                        ("decoding failure: " +:+ cause)))).
Proof.
  unfold Fetch, httpFetcher_fetcher, httpFetcher_Fetch.
  split_and!.
  - intros cause w1.
    destruct (http_Get (client f) url w) as [[resp|resp err] w2].
    + destruct (Body resp) as [data|err] eqn:Hbody; split.
      * discriminate.
      * intros [(resp' & Hget)|(resp' & Hget & Hbody')]; [discriminate|].
        congruence.
      * intros Heq. right. exists resp. split; congruence.
      * intros [(resp' & Hget)|(resp' & Hget & Hbody')]; congruence.
    + split.
      * intros Heq. left. exists resp. congruence.
      * intros [(resp' & Hget)|(resp' & Hget & Hbody')]; congruence.
  - intros resp data w1 -> ->. reflexivity.
  - intros r cert rest resp data cause w1 Hf Hlimit Hurls Hget _ Hbody Hdec.
    rewrite Resolve_unfold by done.
    rewrite (iteration_decode_failure r 0 [cert] w cert url rest data cause w1);
      [reflexivity | lia | done | done | | done].
    unfold Fetch, httpFetcher_fetcher, httpFetcher_Fetch.
    by rewrite Hf, Hget, Hbody.
Qed.

End HTTP.

(** * The scenarios of the design and the claims at sample inputs *)

Import Sample.

(** Scenario A: the issuer URL of the first certificate serves a
    self-signed certificate. *)
Example scenario_A :
  outcome (Resolve (resolverWith healthy 15) (SOf [intermediate]) tt) =
  Val (SOf [intermediate; root], None).
Proof. vm_compute. reflexivity. Qed.

(** Scenario B: the issuer graph is cyclic and the loop limit is 3. *)
Example scenario_B :
  let run := Resolve (resolverWith healthy 3) (SOf [cyclic]) tt in
  outcome run = Val (SOf [cyclic; cyclic; cyclic], None) /\
  fetches (trace run) = [cycleURL; cycleURL] /\
  last (trace run) = Some (EvLog WarningLevel ∅ limitExceededMessage).
Proof. vm_compute. auto. Qed.

(** Scenario D: the issuer URL serves bytes that are no certificate. *)
Example scenario_D :
  outcome (Resolve (resolverWith garbled 15) (SOf [leaf]) tt) =
  Val (SNil, Some (decodeErrorMessage "asn1: structure error")).
Proof. vm_compute. reflexivity. Qed.

Lemma Resolve_failure_aborts_witness :
  EvFetch intermediateURL (Err "connection refused")
    ∈ trace (Resolve (resolverWith primaryDown 15) (SOf [leaf]) tt) /\
  outcome (Resolve (resolverWith primaryDown 15) (SOf [leaf]) tt) =
    Val (SNil, Some (fetchErrorMessage "connection refused")).
Proof.
  assert (Hin : EvFetch intermediateURL (Err "connection refused")
                  ∈ trace (Resolve (resolverWith primaryDown 15) (SOf [leaf]) tt))
    by (vm_compute; constructor).
  split; [exact Hin|].
  exact (proj1 (Resolve_failure_aborts (resolverWith primaryDown 15)
                  (SOf [leaf]) tt) _ _ Hin).
Defined.

(** C2 as stated fails: the request for the issuer of the leaf is answered
    with status 500, [Fetch] returns the body without an error, and
    [Resolve] returns the chain completed with the certificate decoded from
    that body. *)
Lemma status_500_is_not_a_fetch_error :
  let f := newHTTPFetcher defaultURLResolverFetchTimeout in
  http_Get (client f) intermediateURL tt =
    (GetResponse {| StatusCode := 500; Body := Ok ["R"%byte] |}, tt) /\
  Fetch f intermediateURL tt = (Ok ["R"%byte], tt) /\
  outcome (Resolve (newURLResolver ∅) (SOf [leaf]) tt) =
    Val (SOf [leaf; root], None).
Proof. vm_compute. auto. Qed.

Lemma httpFetcher_Fetch_status_witness :
  http_Get (client (newHTTPFetcher defaultURLResolverFetchTimeout)) mirrorURL tt =
    (GetResponse {| StatusCode := 500; Body := Ok ["<"%byte] |}, tt) /\
  outcome (Resolve (newURLResolver ∅) (SOf [otherLeaf]) tt) =
    Val (SNil, Some (decodeErrorMessage "asn1: structure error")).
Proof.
  split; [reflexivity|].
  apply (proj2 (proj2 (httpFetcher_Fetch_status
                         (newHTTPFetcher defaultURLResolverFetchTimeout)
                         mirrorURL tt))
           (newURLResolver ∅) otherLeaf []
           {| StatusCode := 500; Body := Ok ["<"%byte] |} ["<"%byte]
           "asn1: structure error" tt);
    first [reflexivity | (vm_compute; reflexivity)].
Defined.

Lemma Resolve_loop_limit_witness :
  EvLog WarningLevel ∅ limitExceededMessage
    ∈ trace (Resolve (resolverWith healthy 3) (SOf [cyclic]) tt) /\
  outcome (Resolve (resolverWith healthy 3) (SOf [cyclic]) tt) =
    Val (SOf ([cyclic] ++
              decoded (trace (Resolve (resolverWith healthy 3) (SOf [cyclic]) tt))),
         None).
Proof.
  assert (Hin : EvLog WarningLevel ∅ limitExceededMessage
                  ∈ trace (Resolve (resolverWith healthy 3) (SOf [cyclic]) tt))
    by (vm_compute; repeat constructor).
  split; [exact Hin|].
  exact (proj2 (proj2 (Resolve_loop_limit (resolverWith healthy 3)
                         (SOf [cyclic]) tt)) _ Hin).
Defined.

Lemma Resolve_appends_only_witness :
  outcome (Resolve (resolverWith healthy 15) (SOf [leaf]) tt) =
    Val (SOf [leaf; intermediate; root], None) /\
  head [leaf; intermediate; root] = head [leaf].
Proof.
  assert (Hout : outcome (Resolve (resolverWith healthy 15) (SOf [leaf]) tt) =
                 Val (SOf [leaf; intermediate; root], None))
    by (vm_compute; reflexivity).
  split; [exact Hout|].
  exact (proj2 (proj2 (Resolve_appends_only (resolverWith healthy 15)
                         (SOf [leaf]) tt _ Hout))).
Defined.

(** C5 as stated fails: nothing can be reached, and the calls for two
    leaves with different issuer URLs return the same error, in which neither
    the URL fetched nor the subject of the certificate occurs. *)
Lemma returned_error_tells_no_url_nor_certificate :
  let r := resolverWith unreachable 15 in
  let run := Resolve r (SOf [leaf]) tt in
  let run' := Resolve r (SOf [otherLeaf]) tt in
  let err := "error while fetching issuer certificate: remote fetch failure: connection refused" in
  fetches (trace run) = [intermediateURL] /\
  fetches (trace run') = [mirrorURL] /\
  outcome run = Val (SNil, Some err) /\
  outcome run' = Val (SNil, Some err) /\
  mentions intermediateURL err = false /\
  mentions mirrorURL err = false /\
  mentions (Subject leaf) err = false /\
  mentions (Subject otherLeaf) err = false.
Proof. vm_compute. repeat split. Qed.

Lemma Resolve_fetch_failure_report_witness :
  EvFetch intermediateURL (Err "connection refused")
    ∈ trace (Resolve (resolverWith unreachable 15) (SOf [leaf]) tt) /\
  outcome (Resolve (resolverWith unreachable 15) (SOf [leaf]) tt) =
    Val (SNil, Some (fetchErrorMessage "connection refused")).
Proof.
  assert (Hin : EvFetch intermediateURL (Err "connection refused")
                  ∈ trace (Resolve (resolverWith unreachable 15) (SOf [leaf]) tt))
    by (vm_compute; constructor).
  split; [exact Hin|].
  exact (proj1 (Resolve_fetch_failure_report (resolverWith unreachable 15)
                  (SOf [leaf]) tt _ _ Hin)).
Defined.

Lemma Resolve_root_reached_witness :
  exists l cert,
    outcome (Resolve (resolverWith healthy 15) (SOf [leaf]) tt) = Val (SOf l, None) /\
    last l = Some cert /\
    Issuer cert = Subject cert /\
    checkSignature (PublicKey cert) cert = true.
Proof.
  apply (Resolve_root_reached checkSignature (resolverWith healthy 15)
           (SOf [leaf]) tt (WithField "Subject" (Subject intermediate) ∅)).
  - reflexivity.
  - vm_compute. reflexivity.
Defined.

Lemma Resolve_empty_url_list_panics_witness :
  IssuingCertificateURL emptyListLeaf = SOf [] /\
  Resolve (resolverWith healthy defaultURLResolverLoopLimit)
    (SOf [leaf; emptyListLeaf]) tt =
  (Panic "index out of range", tt, []).
Proof.
  split; [reflexivity|].
  apply (Resolve_empty_url_list_panics
           (resolverWith healthy defaultURLResolverLoopLimit)
           [leaf; emptyListLeaf] emptyListLeaf tt).
  - reflexivity.
  - reflexivity.
  - vm_compute. reflexivity.
Defined.

Lemma Resolve_fetches_first_url_witness :
  fetches (trace (Resolve (resolverWith primaryDown 15) (SOf [leaf]) tt)) !! 0%nat =
    Some intermediateURL /\
  exists cert,
    (tail_of (SOf [leaf]) ++
     decoded (trace (Resolve (resolverWith primaryDown 15) (SOf [leaf]) tt)))
      !! 0%nat = Some cert /\
    exists rest, IssuingCertificateURL cert = SOf (intermediateURL :: rest).
Proof.
  assert (Hi : fetches (trace (Resolve (resolverWith primaryDown 15)
                                 (SOf [leaf]) tt)) !! 0%nat =
               Some intermediateURL)
    by (vm_compute; reflexivity).
  split; [exact Hi|].
  exact (proj1 (Resolve_fetches_first_url (resolverWith primaryDown 15)
                  (SOf [leaf]) tt) _ _ Hi).
Defined.

Lemma Resolve_empty_chain_witness :
  Resolve (resolverWith healthy 15) (SOf []) tt = (Val (SNil, None), tt, []) /\
  Resolve (resolverWith healthy 15) SNil tt = (Val (SNil, None), tt, []).
Proof.
  split.
  - apply (Resolve_empty_chain (resolverWith healthy 15) (SOf []) tt).
    vm_compute. reflexivity.
  - apply (Resolve_empty_chain (resolverWith healthy 15) SNil tt).
    vm_compute. reflexivity.
Defined.

(** * Further properties of the resolver *)

Section Further.

Context {World : Type} `{!helpers} {F : Type} `{!fetcher (World := World) F}.

Implicit Types (r : urlResolver F) (w : World) (l pre : list Certificate).
Implicit Types (certs chain : slice Certificate) (evs : list Event).

(** An event that is found among the few events of one pass. *)
Ltac among_pass H :=
  repeat (apply elem_of_cons in H as [H|H];
          [try discriminate H; try (injection H as ?; subst)|]);
  try (apply elem_of_nil in H; contradiction).

(** Induction on a run, with the names used throughout. *)
Ltac run_induction Hruns :=
  induction Hruns as [loop l w certs1 w1 evs Hpass
                     |loop l w certs1 err1 w1 evs Hpass
                     |loop l w msg1 w1 evs Hpass
                     |loop l w loop1 l1 w1 evs1 x w2 evs2 Hpass Hruns IH];
  unfold outcome, trace in *; simpl in *.

Lemma warnings_app evs1 evs2 :
  warnings (evs1 ++ evs2) = warnings evs1 ++ warnings evs2.
Proof.
  induction evs1 as [|[url res|data res|[|] log msg] evs1 IH]; simpl;
    by rewrite ?IH.
Qed.

Lemma fetched_data_app evs1 evs2 :
  fetched_data (evs1 ++ evs2) = fetched_data evs1 ++ fetched_data evs2.
Proof.
  induction evs1 as [|[url [data|err]|data res|lvl log msg] evs1 IH]; simpl;
    by rewrite ?IH.
Qed.

Lemma decode_inputs_app evs1 evs2 :
  decode_inputs (evs1 ++ evs2) = decode_inputs evs1 ++ decode_inputs evs2.
Proof.
  induction evs1 as [|[url res|data res|lvl log msg] evs1 IH]; simpl;
    by rewrite ?IH.
Qed.

Lemma runs_error_origin r loop l w run chain err :
  runs r loop l w run ->
  outcome run = Val (chain, Some err) ->
  (exists url cause,
     err = fetchErrorMessage cause /\ EvFetch url (Err cause) ∈ trace run) \/
  (exists data cause,
     err = decodeErrorMessage cause /\ EvDecode data (Err cause) ∈ trace run).
Proof.
  intros Hruns. run_induction Hruns; intros Hout.
  - discriminate.
  - inversion Hpass; subst; injection Hout as _ <-.
    + left. exists url, cause. split; [done|]. apply elem_of_cons. by left.
    + right. exists data, cause. split; [done|].
      apply elem_of_cons. right. apply elem_of_cons. by left.
  - discriminate.
  - destruct (IH Hout) as [(url & cause & -> & Hin)|(data & cause & -> & Hin)].
    + left. exists url, cause. split; [done|]. apply elem_of_app. by right.
    + right. exists data, cause. split; [done|]. apply elem_of_app. by right.
Qed.

Lemma runs_counts r loop l w run :
  runs r loop l w run ->
  (length (decoded (trace run)) <= length (fetches (trace run))
     <= S (length (decoded (trace run))))%nat /\
  (forall chain, outcome run = Val (chain, None) ->
     length (fetches (trace run)) = length (decoded (trace run))).
Proof.
  intros Hruns. run_induction Hruns.
  1-3: inversion Hpass; subst; simpl; split; (lia || (intros; (done || lia))).
  inversion Hpass; subst. rewrite fetches_app, decoded_app. simpl.
  destruct IH as [IH1 IH2]. split; [lia|].
  intros chain Hout. by rewrite (IH2 _ Hout).
Qed.

Lemma runs_warnings r loop l w run :
  runs r loop l w run ->
  (warnings (trace run) = [] /\
   forall chain err, outcome run <> Val (chain, Some err)) \/
  (exists before log msg,
     trace run = before ++ [EvLog WarningLevel log msg] /\ warnings before = []).
Proof.
  intros Hruns. run_induction Hruns.
  - inversion Hpass; subst; simpl.
    + right. by exists [], (logger r), limitExceededMessage.
    + left. by split.
    + left. by split.
  - inversion Hpass; subst; simpl; right.
    + by eexists [_], _, _.
    + by eexists [_; _], _, _.
  - inversion Hpass; subst; simpl. left. by split.
  - assert (Hquiet : warnings evs1 = []) by (by inversion Hpass; subst).
    destruct IH as [[Hnone Herr]|(before & log & msg & -> & Hnone)].
    + left. split; [|done]. by rewrite warnings_app, Hquiet, Hnone.
    + right. exists (evs1 ++ before), log, msg.
      split; [by rewrite app_assoc|]. by rewrite warnings_app, Hquiet, Hnone.
Qed.

Lemma runs_decode_inputs r loop l w run :
  runs r loop l w run ->
  decode_inputs (trace run) = fetched_data (trace run).
Proof.
  intros Hruns. run_induction Hruns.
  1-3: by inversion Hpass; subst.
  inversion Hpass; subst. rewrite decode_inputs_app, fetched_data_app. simpl.
  by rewrite IH.
Qed.

Lemma runs_stop_reasons r loop l w run chain :
  runs r loop l w run ->
  outcome run = Val (chain, None) ->
  (exists log, last (trace run) = Some (EvLog WarningLevel log limitExceededMessage)) \/
  (exists cert, last (elems chain) = Some cert /\
                (IssuingCertificateURL cert = SNil \/ isSelfSigned cert = true)).
Proof.
  intros Hruns. revert chain. run_induction Hruns; intros chain Hout.
  - injection Hout as <-. inversion Hpass; subst; simpl.
    + left. by eexists.
    + right. exists cert. auto.
    + right. exists newCert. rewrite last_snoc. auto.
  - inversion Hpass; subst; discriminate.
  - discriminate.
  - destruct (IH _ Hout) as [(log & Hlast)|Hcert]; [left|by right].
    exists log. rewrite last_app. by rewrite Hlast.
Qed.

(** The first pass of a run that decodes a certificate fetched it from the
    first issuer URL of the certificate that ended the chain. *)
Lemma runs_decoded_first r loop l w run :
  runs r loop l w run ->
  decoded (trace run) <> [] ->
  exists cert url rest,
    last l = Some cert /\ IssuingCertificateURL cert = SOf (url :: rest).
Proof.
  intros Hruns Hdec. destruct Hruns as [loop l w certs1 w1 evs Hpass
                     |loop l w certs1 err1 w1 evs Hpass
                     |loop l w msg1 w1 evs Hpass
                     |loop l w loop1 l1 w1 evs1 x w2 evs2 Hpass Hruns];
    unfold trace in *; simpl in *;
    inversion Hpass; subst; simpl in *; try done; by eauto.
Qed.

Lemma runs_intermediates r loop l w run i cert :
  runs r loop l w run ->
  decoded (trace run) !! i = Some cert ->
  (S i < length (decoded (trace run)))%nat ->
  isSelfSigned cert = false /\
  exists url rest, IssuingCertificateURL cert = SOf (url :: rest).
Proof.
  intros Hruns. revert i. run_induction Hruns; intros i Hi Hlen.
  1-3: inversion Hpass; subst; simpl in *; lia.
  assert (Hdec : exists newCert,
             decoded evs1 = [newCert] /\ l1 = l ++ [newCert] /\
             isSelfSigned newCert = false)
    by (inversion Hpass; subst; by eexists).
  destruct Hdec as (newCert & Hdec & -> & Hroot).
  rewrite decoded_app, Hdec in Hi, Hlen. simpl in *.
  destruct i as [|i]; simpl in *.
  - injection Hi as <-. split; [done|].
    destruct (runs_decoded_first _ _ _ _ _ Hruns) as (c & url & rest & Hc & Hurls).
    { unfold trace; simpl. destruct (decoded evs2); [simpl in Hlen; lia | done]. }
    rewrite last_snoc in Hc. injection Hc as <-. eauto.
  - apply (IH i); [done | lia].
Qed.

Lemma runs_panic_origin r loop l w run msg :
  runs r loop l w run ->
  outcome run = Panic msg ->
  exists cert, last (l ++ decoded (trace run)) = Some cert /\
               IssuingCertificateURL cert = SOf [].
Proof.
  intros Hruns. run_induction Hruns; intros Hout.
  - discriminate.
  - discriminate.
  - inversion Hpass; subst; simpl. exists cert. by rewrite app_nil_r.
  - destruct (IH Hout) as (cert & Hlast & Hurls).
    exists cert. split; [|done].
    inversion Hpass; subst. rewrite decoded_app. simpl.
    by rewrite <- app_assoc in Hlast.
Qed.

Lemma runs_decode_failure_report r loop l w run data cause :
  runs r loop l w run ->
  EvDecode data (Err cause) ∈ trace run ->
  exists before cert url rest,
    last (l ++ decoded (trace run)) = Some cert /\
    IssuingCertificateURL cert = SOf (url :: rest) /\
    trace run =
      before ++ [EvFetch url (Ok data);
                 EvDecode data (Err cause);
                 EvLog WarningLevel (WithError cause (fetchLogger r cert))
                   "Certificate decoding error"].
Proof.
  intros Hruns. run_induction Hruns; intros Hin.
  - inversion Hpass; subst; exfalso; among_pass Hin.
  - inversion Hpass; subst; among_pass Hin.
    exists [], cert, url, rest. simpl. rewrite app_nil_r. auto.
  - inversion Hpass; subst. by apply elem_of_nil in Hin.
  - assert (Hin2 : EvDecode data (Err cause) ∈ evs2).
    { inversion Hpass; subst.
      apply elem_of_app in Hin as [Hin|Hin]; [exfalso; among_pass Hin|done]. }
    assert (Hdec : l ++ decoded evs1 = l1) by (by inversion Hpass; subst).
    destruct (IH Hin2) as (before & cert & url & rest & Hlast & Hurls & Htrace).
    exists (evs1 ++ before), cert, url, rest. subst evs2.
    split_and!; [| done | by rewrite app_assoc].
    by rewrite decoded_app, app_assoc, Hdec.
Qed.

(** What a pass meets settles the way it goes. *)
Ltac decide_pass r loop l w Hne :=
  let Hpass := fresh "Hpass" in
  pose proof (iteration_pass r loop l w Hne) as Hpass;
  destruct Hpass; first [lia | congruence].

Lemma iteration_limit r loop certs w :
  loop + 1 >= loopLimit r ->
  iteration r loop certs w =
  (Val (Break certs), w, [EvLog WarningLevel (logger r) limitExceededMessage]).
Proof.
  intros Hlimit. unfold iteration.
  by rewrite bool_decide_eq_true_2.
Qed.

Lemma iteration_root r loop l w cert url rest data newCert w1 :
  loop + 1 < loopLimit r ->
  last l = Some cert ->
  IssuingCertificateURL cert = SOf (url :: rest) ->
  Fetch (fetcher' r) url w = (Ok data, w1) ->
  decoder' r data = Ok newCert ->
  isSelfSigned newCert = true ->
  iteration r loop (SOf l) w =
  (Val (Break (SOf (l ++ [newCert]))), w1,
   [EvFetch url (Ok data);
    EvDecode data (Ok newCert);
    EvLog DebugLevel
      (preparePrefixedCertificateLogger (fetchLogger r cert) newCert "newCert")
      "Appending the certificate to the chain";
    EvLog DebugLevel (prepareCertificateLogger (logger r) cert)
      rootReachedMessage]).
Proof.
  intros Hlt Hlast Hurls Hfetch Hdec Hroot.
  assert (Hne : l <> []) by (intros ->; discriminate).
  decide_pass r loop l w Hne.
Qed.

Lemma iteration_fetch_failure r loop l w cert url rest cause w1 :
  loop + 1 < loopLimit r ->
  last l = Some cert ->
  IssuingCertificateURL cert = SOf (url :: rest) ->
  Fetch (fetcher' r) url w = (Err cause, w1) ->
  iteration r loop (SOf l) w =
  (Val (Return SNil (Some (fetchErrorMessage cause))), w1,
   [EvFetch url (Err cause);
    EvLog WarningLevel
      (WithField "issuerURL" url (WithError cause (fetchLogger r cert)))
      "Remote certificate fetching error"]).
Proof.
  intros Hlt Hlast Hurls Hfetch.
  assert (Hne : l <> []) by (intros ->; discriminate).
  decide_pass r loop l w Hne.
Qed.

Lemma bind_ret {A B} (a : A) (k : A -> M B) w :
  bind (ret a) k w = k a w.
Proof.
  unfold bind, ret. by destruct (k a w) as [[x w2] evs2].
Qed.

(** A pass looks at the last certificate of the chain only: what stands
    before it is carried along. *)
Lemma iteration_prefix r loop pre l w :
  l <> [] ->
  iteration r loop (SOf (pre ++ l)) w =
  run_map (flow_prepend pre) (iteration r loop (SOf l) w).
Proof.
  intros Hne.
  destruct (last l) as [cert|] eqn:Hlast;
    [|apply last_None in Hlast; contradiction].
  assert (Hlast' : last (pre ++ l) = Some cert)
    by (by rewrite last_app, Hlast).
  unfold iteration.
  destruct (bool_decide (loop + 1 >= loopLimit r)); [reflexivity|].
  rewrite (last_index _ _ Hlast), (last_index _ _ Hlast'), !bind_ret.
  destruct (is_nil (IssuingCertificateURL cert)); [reflexivity|].
  unfold bind.
  destruct (fetchIssuerCertificate r cert w) as [[[[newCert|err]|msg|] w1] evs];
    try reflexivity.
  destruct (isSelfSigned newCert); unfold run_map, append; simpl;
    by rewrite <- app_assoc.
Qed.

Lemma resolveLoop_prefix r fuel loop pre l w :
  l <> [] ->
  resolveLoop r fuel loop (SOf (pre ++ l)) w =
  run_map (result_prepend pre) (resolveLoop r fuel loop (SOf l) w).
Proof.
  revert loop l w.
  induction fuel as [|fuel IH]; intros loop l w Hne; [reflexivity|].
  pose proof (iteration_pass r loop l w Hne) as Hpass.
  cbn [resolveLoop]. unfold bind at 1 2.
  rewrite (iteration_prefix r loop pre l w Hne).
  destruct (iteration r loop (SOf l) w) as [[x w1] evs1].
  destruct x as [[certs1|certs1 err|loop1 certs1]|msg|]; try reflexivity.
  inversion Hpass; subst. unfold run_map at 1. simpl.
  rewrite (IH (loop + 1) (l ++ [newCert]) w1) by (by destruct l).
  by destruct (resolveLoop r fuel (loop + 1) (SOf (l ++ [newCert])) w1)
    as [[x w2] evs2].
Qed.

Lemma Resolve_prefix r pre l w :
  l <> [] ->
  Resolve r (SOf (pre ++ l)) w =
  run_map (result_prepend pre) (Resolve r (SOf l) w).
Proof.
  intros Hne. unfold Resolve.
  rewrite !bool_decide_eq_false_2.
  - by apply resolveLoop_prefix.
  - unfold len. destruct l; [done | simpl; lia].
  - unfold len. simpl. rewrite length_app. destruct l; [done | simpl; lia].
Qed.

(** ** What the code shows beyond the claims *)

(** X1. An error returned by [Resolve] always comes from a fetch or from a
    decode that failed during the call, and its message is the fixed context
    of that kind of failure followed by the message of the cause. *)
Theorem Resolve_error_origin r certs w chain err :
  outcome (Resolve r certs w) = Val (chain, Some err) ->
  (exists url cause,
     err = "error while fetching issuer certificate: " +:+
           ("remote fetch failure: " +:+ cause) /\
     EvFetch url (Err cause) ∈ trace (Resolve r certs w)) \/
  (exists data cause,
     err = "error while fetching issuer certificate: " +:+
           ("decoding failure: " +:+ cause) /\
     EvDecode data (Err cause) ∈ trace (Resolve r certs w)).
Proof.
  intros Hout.
  destruct (Resolve_cases r certs w) as [[_ Heq]|[_ Hruns]].
  { rewrite Heq in Hout. discriminate. }
  exact (runs_error_origin _ _ _ _ _ _ _ Hruns Hout).
Qed.

(** X2. When [Resolve] returns a chain without error, the chain has grown
    by exactly one certificate for each fetch of the call, hence by at most
    N-1 certificates under the loop limit N. *)
Theorem Resolve_success_counts r certs w chain :
  outcome (Resolve r certs w) = Val (chain, None) ->
  length (elems chain) =
    (length (elems certs) + length (fetches (trace (Resolve r certs w))))%nat /\
  (length (elems chain) <= length (elems certs) + Z.to_nat (loopLimit r - 1))%nat.
Proof.
  intros Hout.
  destruct (Resolve_cases r certs w) as [[Hnil Heq]|[_ Hruns]].
  { rewrite Heq in Hout |- *. unfold outcome, trace in *; simpl in *.
    injection Hout as <-. rewrite Hnil. simpl. lia. }
  pose proof (runs_success _ _ _ _ _ _ Hruns Hout) as ->.
  destruct (runs_counts _ _ _ _ _ Hruns) as [_ Heq].
  pose proof (runs_fetch_count _ _ _ _ _ Hruns) as Hcount.
  replace (loopLimit r - 0 - 1) with (loopLimit r - 1) in Hcount by lia.
  simpl. rewrite length_app, <- (Heq _ Hout). lia.
Qed.

(** X3. A resolver whose loop limit is one or less never enters the body of
    the loop: on a chain that is not empty it returns the chain as it is,
    with no error, no fetch and the loop-limit warning as its only record. *)
Theorem Resolve_limit_below_two r l w :
  l <> [] ->
  loopLimit r <= 1 ->
  Resolve r (SOf l) w =
  (Val (SOf l, None), w,
   [EvLog WarningLevel (logger r)
      "urlResolver loop limit exceeded; exiting the loop"]).
Proof.
  intros Hne Hlimit.
  rewrite (Resolve_unfold r l w Hne).
  by rewrite (iteration_limit r 0 (SOf l) w) by lia.
Qed.

(** X4. Whatever its length, a chain whose last certificate has a nil list
    of issuer URLs is returned as it is, without error, without a fetch and
    without a change of the world: resolving a chain that is already at its
    end does nothing. *)
Theorem Resolve_last_without_url r l cert w :
  last l = Some cert ->
  IssuingCertificateURL cert = SNil ->
  let run := Resolve r (SOf l) w in
  outcome run = Val (SOf l, None) /\
  fetches (trace run) = [] /\
  decoded (trace run) = [] /\
  run.1.2 = w.
Proof.
  intros Hlast Hurls run. subst run.
  assert (Hne : l <> []) by (intros ->; discriminate).
  rewrite (Resolve_unfold r l w Hne).
  destruct (iteration_no_url r 0 l w cert Hlast Hurls)
    as (log & lvl & msg & ->).
  by unfold outcome, trace.
Qed.

(** X5. [Resolve] looks at the last certificate of its input only. The
    certificates before it change neither the fetches, nor the records, nor
    the world, nor the kind of result; they are found again, in place, in
    front of the chain returned. *)
Theorem Resolve_prefix_independent r pre l w :
  l <> [] ->
  let run := Resolve r (SOf l) w in
  let run' := Resolve r (SOf (pre ++ l)) w in
  trace run' = trace run /\
  run'.1.2 = run.1.2 /\
  outcome run' = Exec_map (result_prepend pre) (outcome run).
Proof.
  intros Hne run run'. subst run run'.
  by rewrite (Resolve_prefix r pre l w Hne).
Qed.

(** X6. When [Resolve] returns a chain without error on an input that is
    not empty, either the loop limit was hit, which the last record tells, or
    the chain is at its end for the resolver: its last certificate has a nil
    list of issuer URLs or is accepted by the root detector. *)
Theorem Resolve_stop_reasons r certs w chain :
  elems certs <> [] ->
  outcome (Resolve r certs w) = Val (chain, None) ->
  (exists log,
     last (trace (Resolve r certs w)) =
     Some (EvLog WarningLevel log
             "urlResolver loop limit exceeded; exiting the loop")) \/
  (exists cert,
     last (elems chain) = Some cert /\
     (IssuingCertificateURL cert = SNil \/ isSelfSigned cert = true)).
Proof.
  intros Hne Hout.
  destruct (Resolve_cases r certs w) as [[Hnil _]|[_ Hruns]]; [done|].
  exact (runs_stop_reasons _ _ _ _ _ _ Hruns Hout).
Qed.

(** X7. Of the certificates that a call decodes, every one but the last
    was rejected by the root detector and carries at least one issuer URL:
    the loop goes on from a certificate only when it is no root and names
    where its issuer is. *)
Theorem Resolve_intermediates r certs w i cert :
  decoded (trace (Resolve r certs w)) !! i = Some cert ->
  (S i < length (decoded (trace (Resolve r certs w))))%nat ->
  isSelfSigned cert = false /\
  exists url rest, IssuingCertificateURL cert = SOf (url :: rest).
Proof.
  intros Hi Hlen.
  destruct (Resolve_cases r certs w) as [[_ Heq]|[_ Hruns]].
  { rewrite Heq in Hi. discriminate. }
  exact (runs_intermediates _ _ _ _ _ _ _ Hruns Hi Hlen).
Qed.

(** X9. Of the two index expressions of the code, the one that takes the
    last certificate of the chain never goes out of range. When a call
    panics in the code of [Resolve] and [fetchIssuerCertificate] itself
    (certificate pointers being taken as not nil, and the collaborators as
    returning), the certificate that ended the chain built so far, the last
    one of the input or the one decoded last, has a list of issuer URLs that
    is present but empty: the panic is the access to its first element. *)
Theorem Resolve_panic_origin r certs w msg :
  outcome (Resolve r certs w) = Panic msg ->
  exists cert,
    last (elems certs ++ decoded (trace (Resolve r certs w))) = Some cert /\
    IssuingCertificateURL cert = SOf [].
Proof.
  intros Hout.
  destruct (Resolve_cases r certs w) as [[_ Heq]|[_ Hruns]].
  { rewrite Heq in Hout. discriminate. }
  exact (runs_panic_origin _ _ _ _ _ _ Hruns Hout).
Qed.

(** X10. When a decode fails during [Resolve], the trace of the call ends
    with the fetch that brought the bytes, from the first issuer URL of the
    certificate that ended the chain built so far, the decode of these very
    bytes, and a warning record made with the logger prepared for that
    certificate, carrying the cause under the key of errors. *)
Theorem Resolve_decode_failure_report r certs w data cause :
  EvDecode data (Err cause) ∈ trace (Resolve r certs w) ->
  exists before cert url rest log,
    last (elems certs ++ decoded (trace (Resolve r certs w))) = Some cert /\
    IssuingCertificateURL cert = SOf (url :: rest) /\
    trace (Resolve r certs w) =
      before ++ [EvFetch url (Ok data);
                 EvDecode data (Err cause);
                 EvLog WarningLevel log "Certificate decoding error"] /\
    log = WithError cause
            (WithField "method" "fetchIssuerCertificate"
               (prepareCertificateLogger (logger r) cert)) /\
    log !! "error" = Some cause.
Proof.
  intros Hin.
  destruct (Resolve_cases r certs w) as [[_ Heq]|[_ Hruns]].
  { rewrite Heq in Hin. by apply elem_of_nil in Hin. }
  destruct (runs_decode_failure_report _ _ _ _ _ _ _ Hruns Hin)
    as (before & cert & url & rest & Hlast & Hurls & Htrace).
  exists before, cert, url, rest. eexists.
  split_and!; [exact Hlast | exact Hurls | exact Htrace | reflexivity |].
  unfold WithError, WithField. by rewrite lookup_insert_eq.
Qed.

(** X11. A call logs at most one warning, and a warning is the last event
    of the call; a call that returns an error has logged one. *)
Theorem Resolve_warnings r certs w :
  let run := Resolve r certs w in
  (length (warnings (trace run)) <= 1)%nat /\
  (forall log msg,
     (log, msg) ∈ warnings (trace run) ->
     last (trace run) = Some (EvLog WarningLevel log msg)) /\
  (forall chain err,
     outcome run = Val (chain, Some err) -> warnings (trace run) <> []).
Proof.
  intros run. subst run.
  destruct (Resolve_cases r certs w) as [[_ ->]|[_ Hruns]].
  { unfold outcome, trace; simpl. split_and!; [lia | |].
    - intros log msg Hin. by apply elem_of_nil in Hin.
    - intros chain err Hout. discriminate. }
  destruct (runs_warnings _ _ _ _ _ Hruns)
    as [[Hnone Herr]|(before & log & msg & Htrace & Hnone)].
  - rewrite Hnone. split_and!; [simpl; lia | |].
    + intros log msg Hin. by apply elem_of_nil in Hin.
    + intros chain err Hout. by destruct (Herr chain err).
  - rewrite Htrace, warnings_app, Hnone. simpl. split_and!; [lia | | done].
    intros log' msg' Hin. apply list_elem_of_singleton in Hin.
    injection Hin as -> ->. apply last_snoc.
Qed.

(** X12. When the first issuer URL of the certificate that ends the chain
    serves a certificate that the root detector accepts, [Resolve] returns
    the chain followed by that certificate and no error, after this one
    fetch. *)
Theorem Resolve_completes_with_root r l w cert url rest data newCert w1 :
  1 < loopLimit r ->
  last l = Some cert ->
  IssuingCertificateURL cert = SOf (url :: rest) ->
  Fetch (fetcher' r) url w = (Ok data, w1) ->
  decoder' r data = Ok newCert ->
  isSelfSigned newCert = true ->
  let run := Resolve r (SOf l) w in
  outcome run = Val (SOf (l ++ [newCert]), None) /\
  fetches (trace run) = [url] /\
  run.1.2 = w1.
Proof.
  intros Hlimit Hlast Hurls Hfetch Hdec Hroot run. subst run.
  assert (Hne : l <> []) by (intros ->; discriminate).
  rewrite (Resolve_unfold r l w Hne).
  by rewrite (iteration_root r 0 l w cert url rest data newCert w1)
    by (done || lia).
Qed.

(** X15. The decoder is given the bodies that the fetcher returned, each
    one once, in the order of the fetches, and nothing else. *)
Theorem Resolve_decodes_what_it_fetched r certs w :
  decode_inputs (trace (Resolve r certs w)) =
  fetched_data (trace (Resolve r certs w)).
Proof.
  destruct (Resolve_cases r certs w) as [[_ ->]|[_ Hruns]]; [done|].
  exact (runs_decode_inputs _ _ _ _ _ Hruns).
Qed.

(** X16. The root detector is applied to the certificates that are
    fetched, never to the input: when the last certificate of the input
    carries an issuer URL and the loop limit lets a pass begin, the call
    begins with a fetch of its first issuer URL, be that certificate
    self-signed or not. *)
Theorem Resolve_fetches_whenever_url r l w cert url rest :
  1 < loopLimit r ->
  last l = Some cert ->
  IssuingCertificateURL cert = SOf (url :: rest) ->
  exists res evs, trace (Resolve r (SOf l) w) = EvFetch url res :: evs.
Proof.
  intros Hlimit Hlast Hurls.
  assert (Hne : l <> []) by (intros ->; discriminate).
  rewrite (Resolve_unfold r l w Hne).
  pose proof (iteration_pass r 0 l w Hne) as Hpass.
  destruct Hpass; try lia; try congruence.
  all: replace url with url0 by congruence; unfold trace; simpl; eauto.
  destruct (resolveLoop r (Z.to_nat (loopLimit r)) (0 + 1)
              (SOf (l ++ [newCert])) w1) as [[x w2] evs2].
  simpl. eauto.
Qed.

(** C7, at the failing input. A chain of one certificate that carries no
    issuer URL is returned as it is, without error and without a fetch, when
    its list of issuer URLs is nil, or when the loop limit lets no pass
    begin. When the list is present but empty and the loop limit is above
    one, the nil test lets the certificate through and the access to the
    first URL is out of range: the call panics where the chain was to be
    returned. *)
Theorem Resolve_single_without_url r cert w :
  len (IssuingCertificateURL cert) = 0 ->
  let run := Resolve r (SOf [cert]) w in
  (IssuingCertificateURL cert = SNil \/ loopLimit r <= 1 ->
   outcome run = Val (SOf [cert], None) /\
   fetches (trace run) = [] /\
   run.1.2 = w) /\
  (IssuingCertificateURL cert <> SNil -> 1 < loopLimit r ->
   exists msg, run = (Panic msg, w, [])).
Proof.
  intros Hlen run. subst run.
  rewrite (Resolve_unfold r [cert] w) by done. split.
  - intros [Hurls|Hlimit].
    + destruct (iteration_no_url r 0 [cert] w cert eq_refl Hurls)
        as (log & lvl & msg & ->).
      by unfold outcome, trace.
    + by rewrite (iteration_limit r 0 (SOf [cert]) w) by lia.
  - intros Hpresent Hlimit.
    assert (Hurls : IssuingCertificateURL cert = SOf []).
    { destruct (IssuingCertificateURL cert) as [|[|url urls]];
        [done | done | unfold len in Hlen; simpl in Hlen; lia]. }
    rewrite (iteration_out_of_range r 0 [cert] w cert) by (done || lia).
    by eexists.
Qed.

End Further.

Section FurtherHTTP.

Context {World : Type} `{!helpers} `{!http (World := World)}.

(** X13. With the HTTP fetcher, a request that fails, or a body that cannot
    be read, for the first issuer URL of the certificate that ends the chain
    makes [Resolve] return a nil chain and the error of a fetch failure that
    wraps the error of the transport, after this one request. *)
Theorem Resolve_http_transport_error (r : urlResolver httpFetcher)
    (l : list Certificate) (w w1 : World) cert url rest cause :
  1 < loopLimit r ->
  last l = Some cert ->
  IssuingCertificateURL cert = SOf (url :: rest) ->
  (exists resp, http_Get (client (fetcher' r)) url w = (GetError resp cause, w1)) \/
  (exists resp, http_Get (client (fetcher' r)) url w = (GetResponse resp, w1) /\
                Body resp = Err cause) ->
  let run := Resolve r (SOf l) w in
  outcome run =
    Val (SNil, Some ("error while fetching issuer certificate: " +:+
                     ("remote fetch failure: " +:+ cause))) /\
  fetches (trace run) = [url] /\
  decode_inputs (trace run) = [] /\
  run.1.2 = w1.
Proof.
  intros Hlimit Hlast Hurls Hget run. subst run.
  assert (Hne : l <> []) by (intros ->; discriminate).
  assert (Hfetch : Fetch (fetcher' r) url w = (Err cause, w1)).
  { unfold Fetch, httpFetcher_fetcher, httpFetcher_Fetch.
    destruct Hget as [(resp & ->)|(resp & -> & ->)]; reflexivity. }
  rewrite (Resolve_unfold r l w Hne).
  by rewrite (iteration_fetch_failure r 0 l w cert url rest cause w1)
    by (done || lia).
Qed.

(** X14. The resolver that [newURLResolver] builds makes at most fourteen
    fetches in a call, and a chain it returns without error has at most
    fourteen certificates more than the input. *)
Theorem newURLResolver_bounds (log : Logger) (certs : slice Certificate)
    (w : World) :
  let run := Resolve (newURLResolver log) certs w in
  (length (fetches (trace run)) <= 14)%nat /\
  (forall chain,
     outcome run = Val (chain, None) ->
     (length (elems chain) <= length (elems certs) + 14)%nat).
Proof.
  intros run. subst run.
  destruct (Resolve_cases (newURLResolver log) certs w) as [[Hnil ->]|[_ Hruns]].
  { unfold outcome, trace; simpl. split; [lia|].
    intros chain Hout. injection Hout as <-. simpl. lia. }
  pose proof (runs_fetch_count _ _ _ _ _ Hruns) as Hcount.
  change (Z.to_nat (loopLimit (newURLResolver log) - 0 - 1)) with 14%nat in Hcount.
  split; [exact Hcount|].
  intros chain Hout.
  pose proof (runs_success _ _ _ _ _ _ Hruns Hout) as ->.
  destruct (runs_counts _ _ _ _ _ Hruns) as [_ Heq].
  simpl. rewrite length_app, <- (Heq _ Hout). lia.
Qed.

End FurtherHTTP.

(** ** The further properties at sample inputs *)

(** With a fetcher that counts its requests, the world left by a call is
    the number of its fetches. *)
Example counting_world :
  let run := Resolve (countingResolver healthy 15) (SOf [leaf]) 0%nat in
  run.1.2 = 2%nat /\ fetches (trace run) = [intermediateURL; rootURL].
Proof. vm_compute. auto. Qed.

Lemma Resolve_error_origin_witness :
  outcome (Resolve (resolverWith unreachable 15) (SOf [leaf]) tt) =
    Val (SNil, Some (fetchErrorMessage "connection refused")) /\
  ((exists url cause,
      fetchErrorMessage "connection refused" =
        "error while fetching issuer certificate: " +:+
        ("remote fetch failure: " +:+ cause) /\
      EvFetch url (Err cause)
        ∈ trace (Resolve (resolverWith unreachable 15) (SOf [leaf]) tt)) \/
   (exists data cause,
      fetchErrorMessage "connection refused" =
        "error while fetching issuer certificate: " +:+
        ("decoding failure: " +:+ cause) /\
      EvDecode data (Err cause)
        ∈ trace (Resolve (resolverWith unreachable 15) (SOf [leaf]) tt))).
Proof.
  assert (Hout : outcome (Resolve (resolverWith unreachable 15) (SOf [leaf]) tt) =
                 Val (SNil, Some (fetchErrorMessage "connection refused")))
    by (vm_compute; reflexivity).
  split; [exact Hout|].
  exact (Resolve_error_origin (resolverWith unreachable 15) (SOf [leaf]) tt _ _ Hout).
Defined.

Lemma Resolve_success_counts_witness :
  outcome (Resolve (resolverWith healthy 15) (SOf [leaf]) tt) =
    Val (SOf [leaf; intermediate; root], None) /\
  length [leaf; intermediate; root] =
    (length [leaf] +
     length (fetches (trace (Resolve (resolverWith healthy 15) (SOf [leaf]) tt))))%nat.
Proof.
  assert (Hout : outcome (Resolve (resolverWith healthy 15) (SOf [leaf]) tt) =
                 Val (SOf [leaf; intermediate; root], None))
    by (vm_compute; reflexivity).
  split; [exact Hout|].
  exact (proj1 (Resolve_success_counts (resolverWith healthy 15)
                  (SOf [leaf]) tt _ Hout)).
Defined.

Lemma Resolve_limit_below_two_witness :
  Resolve (resolverWith healthy 1) (SOf [leaf]) tt =
  (Val (SOf [leaf], None), tt,
   [EvLog WarningLevel ∅ "urlResolver loop limit exceeded; exiting the loop"]).
Proof.
  apply (Resolve_limit_below_two (resolverWith healthy 1) [leaf] tt).
  - discriminate.
  - vm_compute. discriminate.
Defined.

Lemma Resolve_last_without_url_witness :
  IssuingCertificateURL plainLeaf = SNil /\
  outcome (Resolve (resolverWith healthy 15) (SOf [leaf; plainLeaf]) tt) =
    Val (SOf [leaf; plainLeaf], None).
Proof.
  split; [reflexivity|].
  apply (Resolve_last_without_url (resolverWith healthy 15)
           [leaf; plainLeaf] plainLeaf tt); reflexivity.
Defined.

Lemma Resolve_prefix_independent_witness :
  trace (Resolve (resolverWith healthy 15) (SOf ([leaf] ++ [intermediate])) tt) =
  trace (Resolve (resolverWith healthy 15) (SOf [intermediate]) tt) /\
  outcome (Resolve (resolverWith healthy 15) (SOf ([leaf] ++ [intermediate])) tt) =
  Val (SOf [leaf; intermediate; root], None).
Proof.
  destruct (Resolve_prefix_independent (resolverWith healthy 15)
              [leaf] [intermediate] tt) as (Htrace & _ & Hout);
    [discriminate|].
  split; [exact Htrace|].
  rewrite Hout. vm_compute. reflexivity.
Defined.

Lemma Resolve_stop_reasons_witness :
  outcome (Resolve (resolverWith healthy 15) (SOf [leaf]) tt) =
    Val (SOf [leaf; intermediate; root], None) /\
  ((exists log,
      last (trace (Resolve (resolverWith healthy 15) (SOf [leaf]) tt)) =
      Some (EvLog WarningLevel log
              "urlResolver loop limit exceeded; exiting the loop")) \/
   (exists cert,
      last (elems (SOf [leaf; intermediate; root])) = Some cert /\
      (IssuingCertificateURL cert = SNil \/ isSelfSigned cert = true))).
Proof.
  assert (Hout : outcome (Resolve (resolverWith healthy 15) (SOf [leaf]) tt) =
                 Val (SOf [leaf; intermediate; root], None))
    by (vm_compute; reflexivity).
  split; [exact Hout|].
  apply (Resolve_stop_reasons (resolverWith healthy 15) (SOf [leaf]) tt _);
    [discriminate | exact Hout].
Defined.

Lemma Resolve_intermediates_witness :
  decoded (trace (Resolve (resolverWith healthy 15) (SOf [leaf]) tt)) !! 0%nat =
    Some intermediate /\
  isSelfSigned intermediate = false /\
  exists url rest, IssuingCertificateURL intermediate = SOf (url :: rest).
Proof.
  split; [vm_compute; reflexivity|].
  apply (Resolve_intermediates (resolverWith healthy 15) (SOf [leaf]) tt 0%nat).
  - vm_compute. reflexivity.
  - vm_compute. lia.
Defined.

Lemma Resolve_panic_origin_witness :
  let r := {| logger := ∅; fetcher' := servesEmpty;
              decoder' := decodeWithEmpty; loopLimit := 15 |} in
  (exists msg, outcome (Resolve r (SOf [leafOfEmpty]) tt) = Panic msg) /\
  exists cert,
    last (elems (SOf [leafOfEmpty]) ++
          decoded (trace (Resolve r (SOf [leafOfEmpty]) tt))) = Some cert /\
    IssuingCertificateURL cert = SOf [].
Proof.
  intros r.
  assert (Hout : outcome (Resolve r (SOf [leafOfEmpty]) tt) =
                 Panic "index out of range")
    by (vm_compute; reflexivity).
  split; [by eexists|].
  exact (Resolve_panic_origin r (SOf [leafOfEmpty]) tt _ Hout).
Defined.

Lemma Resolve_decode_failure_report_witness :
  EvDecode ["<"%byte; "h"%byte] (Err "asn1: structure error")
    ∈ trace (Resolve (resolverWith garbled 15) (SOf [leaf]) tt) /\
  exists before cert url rest log,
    last (elems (SOf [leaf]) ++
          decoded (trace (Resolve (resolverWith garbled 15) (SOf [leaf]) tt))) =
      Some cert /\
    IssuingCertificateURL cert = SOf (url :: rest) /\
    trace (Resolve (resolverWith garbled 15) (SOf [leaf]) tt) =
      before ++ [EvFetch url (Ok ["<"%byte; "h"%byte]);
                 EvDecode ["<"%byte; "h"%byte] (Err "asn1: structure error");
                 EvLog WarningLevel log "Certificate decoding error"] /\
    log = WithError "asn1: structure error"
            (WithField "method" "fetchIssuerCertificate"
               (prepareCertificateLogger (logger (resolverWith garbled 15)) cert)) /\
    log !! "error" = Some "asn1: structure error".
Proof.
  assert (Hin : EvDecode ["<"%byte; "h"%byte] (Err "asn1: structure error")
                  ∈ trace (Resolve (resolverWith garbled 15) (SOf [leaf]) tt))
    by (vm_compute; repeat constructor).
  split; [exact Hin|].
  exact (Resolve_decode_failure_report (resolverWith garbled 15)
           (SOf [leaf]) tt _ _ Hin).
Defined.

Lemma Resolve_warnings_witness :
  outcome (Resolve (resolverWith unreachable 15) (SOf [leaf]) tt) =
    Val (SNil, Some (fetchErrorMessage "connection refused")) /\
  warnings (trace (Resolve (resolverWith unreachable 15) (SOf [leaf]) tt)) <> [].
Proof.
  assert (Hout : outcome (Resolve (resolverWith unreachable 15) (SOf [leaf]) tt) =
                 Val (SNil, Some (fetchErrorMessage "connection refused")))
    by (vm_compute; reflexivity).
  split; [exact Hout|].
  exact (proj2 (proj2 (Resolve_warnings (resolverWith unreachable 15)
                         (SOf [leaf]) tt)) _ _ Hout).
Defined.

Lemma Resolve_completes_with_root_witness :
  isSelfSigned root = true /\
  outcome (Resolve (resolverWith healthy 15) (SOf [leaf; intermediate]) tt) =
    Val (SOf ([leaf; intermediate] ++ [root]), None).
Proof.
  split; [vm_compute; reflexivity|].
  apply (Resolve_completes_with_root (resolverWith healthy 15)
           [leaf; intermediate] tt intermediate rootURL [] ["R"%byte] root tt);
    first [reflexivity | (vm_compute; reflexivity)].
Defined.

Lemma Resolve_fetches_whenever_url_witness :
  isSelfSigned rootWithURL = true /\
  exists res evs,
    trace (Resolve (resolverWith healthy 15) (SOf [rootWithURL]) tt) =
    EvFetch rootURL res :: evs.
Proof.
  split; [vm_compute; reflexivity|].
  apply (Resolve_fetches_whenever_url (resolverWith healthy 15)
           [rootWithURL] tt rootWithURL rootURL []);
    first [reflexivity | (vm_compute; reflexivity)].
Defined.

Lemma Resolve_http_transport_error_witness :
  let r := @newURLResolver unit networkDown sampleHelpers ∅ in
  outcome (@Resolve unit sampleHelpers httpFetcher
             (@httpFetcher_fetcher unit networkDown) r (SOf [leaf]) tt) =
  Val (SNil, Some (fetchErrorMessage "dial tcp: connection refused")).
Proof.
  intros r.
  apply (@Resolve_http_transport_error unit sampleHelpers networkDown r
           [leaf] tt tt leaf intermediateURL [mirrorURL]
           "dial tcp: connection refused").
  - vm_compute. reflexivity.
  - reflexivity.
  - reflexivity.
  - left. exists None. reflexivity.
Defined.

Lemma newURLResolver_bounds_witness :
  outcome (Resolve (newURLResolver ∅) (SOf [leaf]) tt) =
    Val (SOf [leaf; root], None) /\
  (length (elems (SOf [leaf; root])) <= length (elems (SOf [leaf])) + 14)%nat.
Proof.
  assert (Hout : outcome (Resolve (newURLResolver ∅) (SOf [leaf]) tt) =
                 Val (SOf [leaf; root], None))
    by (vm_compute; reflexivity).
  split; [exact Hout|].
  exact (proj2 (newURLResolver_bounds ∅ (SOf [leaf]) tt) _ Hout).
Defined.

Lemma Resolve_single_without_url_witness :
  len (IssuingCertificateURL emptyListLeaf) = 0 /\
  IssuingCertificateURL emptyListLeaf <> SNil /\
  exists msg,
    Resolve (resolverWith healthy defaultURLResolverLoopLimit)
      (SOf [emptyListLeaf]) tt = (Panic msg, tt, []).
Proof.
  split; [reflexivity|]. split; [discriminate|].
  apply (Resolve_single_without_url
           (resolverWith healthy defaultURLResolverLoopLimit) emptyListLeaf tt).
  - reflexivity.
  - discriminate.
  - vm_compute. reflexivity.
Defined.
